(** * Bybit deviation monitor: detection, ranking and alert de-duplication

    A shallow embedding of [process_data], the alert loop of [main_loop],
    and the record store ([load_arb_records], [save_arb_records],
    [filter_new_alerts]) of the monitoring script.

    Conventions of the embedding
    - Python [float] is IEEE-754 binary64, taken from the [SpecFloat]
      specification of the standard library ([prec = 53], [emax = 1024]).
    - Python [str] is modelled by [string]; case mapping, white space and
      digits are the ASCII ones (the exchange symbols and prices are ASCII).
    - Exceptions are explicit: fallible code returns [result].
    - A [dict] is an association list in insertion order.
    - [list.sort] is a stable sort that only uses [<] on the keys. *)

From Stdlib Require Import ZArith List Bool Ascii String Lia.
From Stdlib Require Import Permutation Sorted DecimalString.
From Stdlib Require Import SpecFloat.
Import ListNotations.

Local Open Scope string_scope.
Local Open Scope Z_scope.

(* ------------------------------------------------------------------ *)
(** ** Exceptions *)

Inductive exn : Type :=
| KeyError
| ValueError
| TypeError
| AttributeError
| OverflowError
| ZeroDivisionError.

Inductive result (A : Type) : Type :=
| Ok (a : A)
| Raise (e : exn).

Arguments Ok {A} a.
Arguments Raise {A} e.

Definition bind {A B : Type} (r : result A) (k : A -> result B) : result B :=
  match r with
  | Ok a => k a
  | Raise e => Raise e
  end.

Notation "x <- r ;; k" := (bind r (fun x => k))
  (at level 61, r at next level, right associativity).

Fixpoint mapM {A B : Type} (f : A -> result B) (l : list A) : result (list B) :=
  match l with
  | [] => Ok []
  | x :: r => y <- f x ;; ys <- mapM f r ;; Ok (y :: ys)
  end.

(* ------------------------------------------------------------------ *)
(** ** Strings *)

Module Str.

Definition chars (s : string) : list ascii := list_ascii_of_string s.
Definition of_chars (l : list ascii) : string := string_of_list_ascii l.

Definition code (c : ascii) : N := N_of_ascii c.

Definition upper_char (c : ascii) : ascii :=
  if ((97 <=? code c) && (code c <=? 122))%N
  then ascii_of_N (code c - 32) else c.

Definition lower_char (c : ascii) : ascii :=
  if ((65 <=? code c) && (code c <=? 90))%N
  then ascii_of_N (code c + 32) else c.

(** [s.upper()] and [s.lower()] *)
Definition upper (s : string) : string := of_chars (map upper_char (chars s)).
Definition lower (s : string) : string := of_chars (map lower_char (chars s)).

(** [s.endswith(suffix)] *)
Definition endswith (s suffix : string) : bool :=
  let n := String.length s in
  let m := String.length suffix in
  (m <=? n)%nat && String.eqb (substring (n - m) m s) suffix.

(** [s[:-k]] for a positive [k] *)
Definition drop_last (k : nat) (s : string) : string :=
  substring 0 (String.length s - k) s.

(** [s.split(sep)[0]] for a one-character separator *)
Fixpoint split_head (sep : ascii) (s : string) : string :=
  match s with
  | EmptyString => EmptyString
  | String c r => if Ascii.eqb c sep then EmptyString
                  else String c (split_head sep r)
  end.

(** The white space [float] strips from an ASCII string. *)
Definition is_space (c : ascii) : bool :=
  (((9 <=? code c) && (code c <=? 13)) || (code c =? 32))%N.

Fixpoint lstrip (l : list ascii) : list ascii :=
  match l with
  | c :: r => if is_space c then lstrip r else l
  | [] => []
  end.

(** [s.strip()], on the characters *)
Definition strip (l : list ascii) : list ascii :=
  rev (lstrip (rev (lstrip l))).

Definition is_digit (c : ascii) : bool :=
  ((48 <=? code c) && (code c <=? 57))%N.

Definition digit_val (c : ascii) : Z := Z.of_N (code c) - 48.

Definition digit_char (d : Z) : ascii := ascii_of_N (Z.to_N (48 + d mod 10)).

(** Decimal digits of a non-negative integer, ["0"] for zero. *)
Definition of_nonneg (n : Z) : string :=
  NilZero.string_of_uint (N.to_uint (Z.to_N n)).

(** The [k] low decimal digits of [n], zero-padded. *)
Fixpoint low_digits (k : nat) (n : Z) : string :=
  match k with
  | O => EmptyString
  | S k' => String (digit_char (n / 10 ^ Z.of_nat k')) (low_digits k' n)
  end.

(** A character that no case mapping turns into the letter a. *)
Definition plain (c : ascii) : Prop := lower_char c <> "a"%char.

(** A decimal digit. *)
Definition digit (c : ascii) : Prop := is_digit c = true.

End Str.

(* ------------------------------------------------------------------ *)
(** ** Floats *)

Module Float.

Definition float := spec_float.

Definition prec : Z := 53.
Definition emax : Z := 1024.

Definition abs (x : float) : float := SFabs x.
Definition neg (x : float) : float := SFopp x.
Definition sub (x y : float) : float := SFsub prec emax x y.
Definition mul (x y : float) : float := SFmul prec emax x y.
Definition ltb (x y : float) : bool := SFltb x y.
Definition leb (x y : float) : bool := SFleb x y.
Definition eqb (x y : float) : bool := SFeqb x y.

Definition is_nan (x : float) : bool :=
  match x with S754_nan => true | _ => false end.

Definition is_zero (x : float) : bool :=
  match x with S754_zero _ => true | _ => false end.

(** The comparison of two floats, [Eq] standing in when one is a NaN. *)
Definition cmp (x y : float) : comparison :=
  match SFcompare x y with Some c => c | None => Eq end.

Definition is_lt (c : comparison) : bool :=
  match c with Lt => true | _ => false end.



(** [x / y] raises [ZeroDivisionError] on a zero divisor, whatever [x]. *)
Definition div (x y : float) : result float :=
  if is_zero y then Raise ZeroDivisionError else Ok (SFdiv prec emax x y).

(** The float nearest to [(-1)^s * p / q], ties to even; an overflow
    gives an infinity.  [p] is non-negative and [q] positive. *)
Definition of_ratio (s : bool) (p q : Z) : float :=
  let '(m, e, l) := SFdiv_core_binary prec emax (Z.abs p) 0 q 0 in
  binary_round_aux prec emax s m e l.

(** The float nearest to [(-1)^s * d * 10^k]. *)
Definition of_decimal (s : bool) (d k : Z) : float :=
  match k with
  | Zneg _ => of_ratio s d (10 ^ (- k))
  | _ => of_ratio s (d * 10 ^ k) 1
  end.

(** Small integer constants convert exactly. *)
Definition of_Z (n : Z) : float := of_ratio (n <? 0) n 1.

(** [float(n)] for a Python [int]: the nearest float, and
    [OverflowError] when it is out of range. *)
Definition of_int (n : Z) : result float :=
  match of_Z n with
  | S754_infinity _ => Raise OverflowError
  | f => Ok f
  end.

(** *** [format(x, ".pf")] *)

Definition div_half_even (a b : Z) : Z :=
  let q := a / b in
  match (2 * (a mod b)) ?= b with
  | Lt => q
  | Gt => q + 1
  | Eq => if Z.even q then q else q + 1
  end.

(** [m * 2^e * 10^p], rounded to the nearest integer, ties to even. *)
Definition scaled (m : positive) (e : Z) (p : nat) : Z :=
  if 0 <=? e then Zpos m * 2 ^ e * 10 ^ Z.of_nat p
  else div_half_even (Zpos m * 10 ^ Z.of_nat p) (2 ^ (- e)).

Definition fixed (n : Z) (p : nat) : string :=
  match p with
  | O => Str.of_nonneg n
  | _ => Str.of_nonneg (n / 10 ^ Z.of_nat p) ++ "." ++ Str.low_digits p n
  end.

Definition sign_str (s : bool) : string := if s then "-" else "".

Definition format_f (p : nat) (x : float) : string :=
  match x with
  | S754_nan => "nan"
  | S754_infinity s => sign_str s ++ "inf"
  | S754_zero s => sign_str s ++ fixed 0 p
  | S754_finite s m e => sign_str s ++ fixed (scaled m e p) p
  end.

(** *** [float(s)] for a string *)

(** [digit (["_"] digit)*] after its first digit: the value read so
    far, the number of digits, and what is left. *)
Fixpoint scan_more (l : list ascii) (acc n : Z) : Z * Z * list ascii :=
  match l with
  | c :: r =>
      if Str.is_digit c then scan_more r (acc * 10 + Str.digit_val c) (n + 1)
      else if Ascii.eqb c "_" then
        match r with
        | d :: _ => if Str.is_digit d then scan_more r acc n else (acc, n, l)
        | [] => (acc, n, l)
        end
      else (acc, n, l)
  | [] => (acc, n, l)
  end.

Definition scan_digits (l : list ascii) : option (Z * Z * list ascii) :=
  match l with
  | c :: r => if Str.is_digit c then Some (scan_more r (Str.digit_val c) 1)
              else None
  | [] => None
  end.

Definition scan_sign (l : list ascii) : bool * list ascii :=
  match l with
  | c :: r => if Ascii.eqb c "-" then (true, r)
              else if Ascii.eqb c "+" then (false, r) else (false, l)
  | [] => (false, l)
  end.

(** [number]: digits with an optional fraction, or a fraction alone;
    answers the digits as an integer [d] and the count [n] of those
    after the point. *)
Definition scan_number (l : list ascii) : option (Z * Z * list ascii) :=
  match scan_digits l with
  | Some (i, _, r) =>
      match r with
      | c :: r' =>
          if Ascii.eqb c "." then
            match scan_digits r' with
            | Some (f, n, r'') => Some (i * 10 ^ n + f, n, r'')
            | None => Some (i, 0, r')
            end
          else Some (i, 0, r)
      | [] => Some (i, 0, r)
      end
  | None =>
      match l with
      | c :: r' =>
          if Ascii.eqb c "." then scan_digits r' else None
      | [] => None
      end
  end.

Definition scan_exponent (l : list ascii) : option Z :=
  match l with
  | [] => Some 0
  | c :: r =>
      if Ascii.eqb (Str.lower_char c) "e" then
        let (s, r') := scan_sign r in
        match scan_digits r' with
        | Some (x, _, []) => Some (if s then - x else x)
        | _ => None
        end
      else None
  end.

Definition is_word (w : string) (l : list ascii) : bool :=
  String.eqb (Str.of_chars (map Str.lower_char l)) w.

Definition of_string (s : string) : result float :=
  let (sg, body) := scan_sign (Str.strip (Str.chars s)) in
  if is_word "inf" body || is_word "infinity" body then Ok (S754_infinity sg)
  else if is_word "nan" body then Ok S754_nan
  else
    match scan_number body with
    | Some (d, n, r) =>
        match scan_exponent r with
        | Some x => Ok (of_decimal sg d (x - n))
        | None => Raise ValueError
        end
    | None => Raise ValueError
    end.

End Float.

(* ------------------------------------------------------------------ *)
(** ** Python values and dictionaries *)

(** A [dict] in insertion order: [dict_set] keeps the place of a key that
    is already there and appends a new one. *)
Section Dict.
Context {V : Type}.

Definition dict := list (string * V).

Fixpoint dict_get (k : string) (d : dict) : option V :=
  match d with
  | [] => None
  | (k', v) :: r => if String.eqb k k' then Some v else dict_get k r
  end.

Definition dict_mem (k : string) (d : dict) : bool :=
  match dict_get k d with Some _ => true | None => false end.

Fixpoint dict_set (k : string) (v : V) (d : dict) : dict :=
  match d with
  | [] => [(k, v)]
  | (k', v') :: r =>
      if String.eqb k k' then (k', v) :: r else (k', v') :: dict_set k v r
  end.

(** [d[k]] *)
Definition getitem (k : string) (d : dict) : result V :=
  match dict_get k d with
  | Some v => Ok v
  | None => Raise KeyError
  end.

(** [d.get(k, default)] *)
Definition get_default (k : string) (default : V) (d : dict) : V :=
  match dict_get k d with
  | Some v => v
  | None => default
  end.

Definition keys (d : dict) : list string := map fst d.
Definition values (d : dict) : list V := map snd d.
End Dict.

Arguments dict V : clear implicits.

(** What the JSON decoder hands over. *)
#[warnings="-register-all"]
Inductive value : Type :=
| VNone
| VBool (b : bool)
| VInt (n : Z)
| VFloat (x : Float.float)
| VStr (s : string)
| VList (l : list value)
| VDict (d : list (string * value)).

(** [float(v)] *)
Definition py_float (v : value) : result Float.float :=
  match v with
  | VStr s => Float.of_string s
  | VFloat x => Ok x
  | VInt n => Float.of_int n
  | VBool b => Ok (Float.of_Z (if b then 1 else 0))
  | VNone | VList _ | VDict _ => Raise TypeError
  end.

(** [v.upper()] *)
Definition py_upper (v : value) : result string :=
  match v with
  | VStr s => Ok (Str.upper s)
  | _ => Raise AttributeError
  end.

(** A ticker of the snapshot is a JSON object. *)
Definition ticker := dict value.

(* ------------------------------------------------------------------ *)
(** ** Configuration *)

Record config : Type := {
  UPDATE_JSON : string;
  DEVIATION_THRESHOLD : Float.float;
  ARBITRAGE_THRESHOLD_CONTRACT : Float.float;
  ARBITRAGE_THRESHOLD_LENDING : Float.float;
  DISPLAY_CONFIG : dict string
}.

(** The constants of the script. *)
Definition source_config : config := {|
  UPDATE_JSON := "no";
  DEVIATION_THRESHOLD := Float.of_decimal false 4 (-1);
  ARBITRAGE_THRESHOLD_CONTRACT := Float.of_Z 1;
  ARBITRAGE_THRESHOLD_LENDING := Float.of_Z 3;
  DISPLAY_CONFIG := [("*", "no")]
|}.

(* ------------------------------------------------------------------ *)
(** ** Sorting *)

(** A stable insertion sort: [x], which stood before all of [l], moves
    past the elements that strictly precede it and no further. *)
Section Sort.
Context {A : Type}.
Variable lt : A -> A -> bool.

Fixpoint insert (x : A) (l : list A) : list A :=
  match l with
  | [] => [x]
  | y :: r => if lt y x then y :: insert x r else x :: y :: r
  end.

Definition sort (l : list A) : list A := fold_right insert [] l.

(** Neither precedes the other. *)
Definition tied (a b : A) : bool := negb (lt a b) && negb (lt b a).

(** No element strictly precedes the one that stands just before it: the
    list is one non-descending run. *)
Fixpoint descent_free (l : list A) : bool :=
  match l with
  | [] => true
  | x :: r =>
      match r with
      | [] => true
      | y :: _ => negb (lt y x) && descent_free r
      end
  end.
End Sort.

(** [a] strictly precedes [b]: by its key, or against it when the sort
    is reversed. *)
Definition before {A K : Type} (ltK : K -> K -> bool) (kf : A -> K)
    (reverse : bool) (a b : A) : bool :=
  if reverse then ltK (kf b) (kf a) else ltK (kf a) (kf b).

(** [l.sort(key=key, reverse=reverse)]: the keys are computed once, up
    front (an exception there leaves the sort), and compared with [<]
    alone; rows with equal keys keep their original order, reversed or
    not.  This is what [list.sort] returns in two cases, and the model
    stands for it there only:
    - the keys are ones that [<] orders (floats that are numbers, pairs
      of them): the result of a stable sort is then fixed by the keys
      and the original order, whatever the algorithm;
    - the list is one non-descending run ([descent_free]): [list.sort]
      looks for such a run first and returns the list as it is, and so
      does [sort] ([sort_descent_free]).
    With a NaN key in a list that has a descent the order [list.sort]
    leaves depends on how the interpreter merges, and may differ from the
    one computed here; every theorem on a sorted table either proves its
    keys numbers or assumes it, and the one counterexample with a NaN key
    is a non-descending run. *)
Definition py_sort {A K : Type} (ltK : K -> K -> bool)
    (key : A -> result K) (reverse : bool) (l : list A) : result (list A) :=
  ks <- mapM key l ;;
  Ok (map snd (sort (before ltK fst reverse) (combine ks l))).

(** [<] on pairs of floats: the first components that differ decide. *)
Definition tuple_ltb (a b : Float.float * Float.float) : bool :=
  if negb (Float.eqb (fst a) (fst b)) then Float.ltb (fst a) (fst b)
  else if negb (Float.eqb (snd a) (snd b)) then Float.ltb (snd a) (snd b)
  else false.

(* ------------------------------------------------------------------ *)
(** ** [process_data] *)

(** One row of [arbitrage_list]: every field but the token is text. *)
Module Entry.
Record t : Type := {
  token : string;
  deviation : string;
  funding_rate : string;
  index_price : string;
  mark_price : string
}.
End Entry.

(** A venue of the registry, as [load_platforms] stores it. *)
Module Venue.
Record t : Type := {
  platform : string;
  type : string
}.
End Venue.

(** One row of [platform_list]. *)
Module Opp.
Record t : Type := {
  pair : string;
  deviation : Float.float;
  funding_rate : Float.float;
  type : string;
  platform : string
}.
End Opp.

Definition tables : Type := list (list string) * list Entry.t * list Opp.t.

Definition hundred : Float.float := Float.of_Z 100.
Definition one : Float.float := Float.of_Z 1.

Definition base_token_of (symbol : string) : string :=
  if Str.endswith symbol "USDT" then Str.drop_last 4 symbol else symbol.

(** [float(item[name])] *)
Definition field_float (name : string) (item : ticker) : result Float.float :=
  v <- getitem name item ;; py_float v.

(** The body of the [try]: three look-ups and conversions, in order. *)
Definition parse_prices (item : ticker)
  : result (Float.float * Float.float * Float.float) :=
  mark_price <- field_float "markPrice" item ;;
  index_price <- field_float "indexPrice" item ;;
  rate <- field_float "fundingRate" item ;;
  let funding_rate := Float.mul rate hundred in
  Ok (mark_price, index_price, funding_rate).

(** [(index_price / mark_price - 1) * 100] *)
Definition deviation_of (index_price mark_price : Float.float)
  : result Float.float :=
  q <- Float.div index_price mark_price ;;
  Ok (Float.mul (Float.sub q one) hundred).

Definition percent (p : nat) (x : Float.float) : string :=
  Float.format_f p x ++ "%".

Definition arbitrage_entry (base_token : string)
    (deviation funding_rate index_price mark_price : Float.float) : Entry.t :=
  {| Entry.token := base_token;
     Entry.deviation := percent 2 deviation;
     Entry.funding_rate := percent 2 funding_rate;
     Entry.index_price := Float.format_f 4 index_price;
     Entry.mark_price := Float.format_f 4 mark_price |}.

Definition opportunity (base_token : string)
    (deviation funding_rate : Float.float) (platform_info : Venue.t) : Opp.t :=
  {| Opp.pair := base_token ++ "_USDT";
     Opp.deviation := deviation;
     Opp.funding_rate := funding_rate;
     Opp.type := Venue.type platform_info;
     Opp.platform := Venue.platform platform_info |}.

(** The venues of a token: the inner [for] runs over them when the token
    is a key of [token_map] and over nothing otherwise. *)
Definition venues_of (token_map : dict (list Venue.t)) (base_token : string)
  : list Venue.t :=
  match dict_get base_token token_map with
  | Some l => l
  | None => []
  end.

(** The body of the [for] over the snapshot. *)
Definition process_item (cfg : config) (token_map : dict (list Venue.t))
    (st : tables) (item : ticker) : result tables :=
  let '(main_table, arbitrage_list, platform_list) := st in
  sym <- getitem "symbol" item ;;
  symbol <- py_upper sym ;;
  let base_token := base_token_of symbol in
  match parse_prices item with
  | Raise KeyError | Raise ValueError => Ok st
  | Raise e => Raise e
  | Ok (mark_price, index_price, funding_rate) =>
      star <- getitem "*" (DISPLAY_CONFIG cfg) ;;
      let main_table :=
        if String.eqb (get_default base_token star (DISPLAY_CONFIG cfg)) "yes"
        then (main_table ++ [[base_token; Float.format_f 4 mark_price;
                              Float.format_f 4 index_price; "USDT"]])%list
        else main_table in
      deviation <- deviation_of index_price mark_price ;;
      if Float.ltb (DEVIATION_THRESHOLD cfg) (Float.abs deviation) then
        Ok (main_table,
            (arbitrage_list ++ [arbitrage_entry base_token deviation
                                  funding_rate index_price mark_price])%list,
            (platform_list ++ map (opportunity base_token deviation funding_rate)
                                  (venues_of token_map base_token))%list)
      else Ok (main_table, arbitrage_list, platform_list)
  end.

Fixpoint for_each {S X : Type} (body : S -> X -> result S)
    (l : list X) (st : S) : result S :=
  match l with
  | [] => Ok st
  | x :: r => st' <- body st x ;; for_each body r st'
  end.

(** The key of the first sort: the displayed deviation, read back. *)
Definition display_key (x : Entry.t) : result Float.float :=
  d <- Float.of_string (Str.drop_last 1 (Entry.deviation x)) ;;
  Ok (Float.abs d).

(** The key of the second sort. *)
Definition rank_key (x : Opp.t) : Float.float * Float.float :=
  (Float.neg (Float.abs (Opp.deviation x)),
   Float.neg (Float.abs (Opp.funding_rate x))).

(** What one ticker adds to the three tables. *)
Definition emitted (cfg : config) (token_map : dict (list Venue.t))
    (item : ticker) : result tables :=
  process_item cfg token_map ([], [], []) item.

(** The [for] over the snapshot: the tables as it leaves them, before the
    two sorts. *)
Definition scan (cfg : config) (token_map : dict (list Venue.t))
    (raw_data : list ticker) : result tables :=
  for_each (process_item cfg token_map) raw_data ([], [], []).

Definition process_data (cfg : config) (raw_data : list ticker)
    (token_map : dict (list Venue.t)) : result tables :=
  st <- scan cfg token_map raw_data ;;
  let '(main_table, arbitrage_list, platform_list) := st in
  arbitrage_list <- py_sort Float.ltb display_key true arbitrage_list ;;
  platform_list <- py_sort tuple_ltb (fun x => Ok (rank_key x)) false
                     platform_list ;;
  Ok (main_table, arbitrage_list, platform_list).


(** The displayed deviation of a row, as the first sort reads it. *)
Definition shown (x : Entry.t) : Float.float :=
  match display_key x with
  | Ok k => k
  | Raise _ => S754_nan
  end.

(** A row of [arbitrage_list] comes from a deviation over the threshold. *)
Definition candidate (cfg : config) (x : Entry.t) : Prop :=
  exists base_token deviation funding_rate index_price mark_price,
    x = arbitrage_entry base_token deviation funding_rate index_price mark_price
    /\ Float.ltb (DEVIATION_THRESHOLD cfg) (Float.abs deviation) = true.

Definition qualified (cfg : config) (x : Opp.t) : Prop :=
  Float.ltb (DEVIATION_THRESHOLD cfg) (Float.abs (Opp.deviation x)) = true.

Definition tables_ok (cfg : config) (st : tables) : Prop :=
  Forall (candidate cfg) (snd (fst st)) /\ Forall (qualified cfg) (snd st).

(** Rows whose displayed deviation is a number. *)
Definition keyed (x : Entry.t) : Prop :=
  display_key x = Ok (shown x) /\ Float.is_nan (shown x) = false.


(** [a] may stand before [b] in [arbitrage_list]: its displayed deviation
    is not the smaller one. *)
Definition shown_ge (a b : Entry.t) : Prop :=
  Float.leb (shown b) (shown a) = true.

Definition same_shown (a b : Entry.t) : bool :=
  Float.eqb (shown a) (shown b).



(* ------------------------------------------------------------------ *)
(** ** The alert list of [main_loop] *)

Module Alert.
Record t : Type := {
  token : string;
  message : string
}.
End Alert.

Definition contract_tag : string := "合约".

Definition threshold_of (cfg : config) (item : Opp.t) : Float.float :=
  if String.eqb (Opp.type item) contract_tag
  then ARBITRAGE_THRESHOLD_CONTRACT cfg
  else ARBITRAGE_THRESHOLD_LENDING cfg.

Definition alert_eligible (cfg : config) (item : Opp.t) : bool :=
  Float.leb (threshold_of cfg item) (Float.abs (Opp.deviation item)).

Definition alert_of (item : Opp.t) : Alert.t :=
  {| Alert.token := Str.split_head "_" (Opp.pair item);
     Alert.message :=
       "套利机会：" ++ Opp.pair item ++ " "
       ++ "偏离率:" ++ percent 2 (Float.abs (Opp.deviation item)) ++ " "
       ++ "资金费率:" ++ percent 2 (Opp.funding_rate item) ++ " "
       ++ "平台:" ++ Opp.platform item |}.

(** The loop that fills [critical_alerts]. *)
Definition critical_alerts (cfg : config) (platform_list : list Opp.t)
  : list Alert.t :=
  fold_left
    (fun acc item =>
       if alert_eligible cfg item then (acc ++ [alert_of item])%list else acc)
    platform_list [].

(* ------------------------------------------------------------------ *)
(** ** The record store *)

Module Rec.
Record t : Type := {
  token : string;
  timestamp : Z;
  message : string
}.
End Rec.

(** The record file.  What [json.dumps] writes, [json.loads] reads back,
    so a written file is kept as the list of its records; [Corrupt] is a
    file whose reading or decoding raises. *)
Inductive file_state : Type :=
| Absent
| Corrupt
| Stored (records : list Rec.t).

(** What a run leaves behind: a warning on the console, a call of
    [save_arb_records], a write of the record file. *)
Inductive event : Type :=
| Printed (msg : string)
| SaveCalled
| Written (records : list Rec.t).

(** What the store functions see of the outside: the file, whether a
    write goes through, the clock ([clock n] is the [n]-th reading of
    [int(time.time())]) and a trace of what happened. *)
Record world : Type := {
  file : file_state;
  writable : bool;
  clock : nat -> Z;
  reads : nat;
  trace : list event
}.

Definition emit (ev : event) (w : world) : world :=
  {| file := file w; writable := writable w; clock := clock w;
     reads := reads w; trace := (trace w ++ [ev])%list |}.

Definition set_file (f : file_state) (w : world) : world :=
  {| file := f; writable := writable w; clock := clock w;
     reads := reads w; trace := trace w |}.

(** [int(time.time())] *)
Definition now (w : world) : Z * world :=
  (clock w (reads w),
   {| file := file w; writable := writable w; clock := clock w;
      reads := S (reads w); trace := trace w |}).

Definition load_arb_records (w : world) : list Rec.t * world :=
  match file w with
  | Absent => ([], w)
  | Stored records => (records, w)
  | Corrupt => ([], emit (Printed "记录加载失败") w)
  end.

Definition persistence_enabled (cfg : config) : bool :=
  String.eqb (Str.lower (UPDATE_JSON cfg)) "yes".

Definition save_arb_records (cfg : config) (records : list Rec.t)
    (w : world) : world :=
  let w := emit SaveCalled w in
  if persistence_enabled cfg then
    if writable w
    then emit (Written records) (set_file (Stored records) w)
    else emit (Printed "记录保存失败") w
  else w.

(** [{r['token']: r for r in records}] *)
Definition index_by_token (records : list Rec.t) : dict Rec.t :=
  fold_left (fun d r => dict_set (Rec.token r) r d) records [].

Definition filter_state : Type := dict Rec.t * list Rec.t * world.

(** The body of the [for] over the alerts. *)
Definition filter_step (st : filter_state) (alert : Alert.t) : filter_state :=
  let '(existing, new_alerts, w) := st in
  let token := Alert.token alert in
  if dict_mem token existing then st
  else
    let (t, w) := now w in
    let new_entry := {| Rec.token := token; Rec.timestamp := t;
                        Rec.message := Alert.message alert |} in
    (dict_set token new_entry existing, (new_alerts ++ [new_entry])%list, w).

(** The load, the index and the loop of [filter_new_alerts]. *)
Definition filter_loop (current_alerts : list Alert.t) (w : world)
  : filter_state :=
  let (records, w) := load_arb_records w in
  let existing := index_by_token records in
  fold_left filter_step current_alerts (existing, [], w).

Definition filter_new_alerts (cfg : config) (current_alerts : list Alert.t)
    (w : world) : list Rec.t * world :=
  let '(existing, new_alerts, w) := filter_loop current_alerts w in
  match new_alerts with
  | [] => (new_alerts, w)
  | _ :: _ => (new_alerts, save_arb_records cfg (values existing) w)
  end.

(** The tokens a load of the store finds. *)
Definition stored_tokens (w : world) : list string :=
  map Rec.token (fst (load_arb_records w)).

(** The tokens that get a record: those of the alerts that are not known
    yet, each once, in the order of the alerts. *)
Fixpoint fresh_tokens (known : list string) (alerts : list Alert.t)
  : list string :=
  match alerts with
  | [] => []
  | a :: r =>
      if existsb (String.eqb (Alert.token a)) known
      then fresh_tokens known r
      else Alert.token a :: fresh_tokens (known ++ [Alert.token a]) r
  end.

(** A value of the index is filed under its own token. *)
Definition filed (d : dict Rec.t) : Prop :=
  Forall (fun kv => Rec.token (snd kv) = fst kv) d.

(** Calls on the store during a run. *)
Inductive call : Type :=
| FilterNew (current_alerts : list Alert.t)
| Save (records : list Rec.t).

Fixpoint run (cfg : config) (calls : list call) (w : world) : world :=
  match calls with
  | [] => w
  | FilterNew current_alerts :: r =>
      run cfg r (snd (filter_new_alerts cfg current_alerts w))
  | Save records :: r => run cfg r (save_arb_records cfg records w)
  end.

(** One pass of the monitoring loop, from the snapshot to the new alerts. *)
Definition poll (cfg : config) (token_map : dict (list Venue.t))
    (raw_data : list ticker) (w : world)
  : result (tables * list Alert.t * list Rec.t * world) :=
  t <- process_data cfg raw_data token_map ;;
  let critical := critical_alerts cfg (snd t) in
  let (new_alerts, w) := filter_new_alerts cfg critical w in
  Ok (t, critical, new_alerts, w).

(* ------------------------------------------------------------------ *)
(** ** Sample data *)

Definition sample_ticker (symbol mark index rate : string) : ticker :=
  [("symbol", VStr symbol); ("markPrice", VStr mark);
   ("indexPrice", VStr index); ("fundingRate", VStr rate)].

Definition foo : ticker := sample_ticker "FOOUSDT" "100" "101" "0.0001".
Definition bar : ticker := sample_ticker "BARUSDT" "200" "190" "-0.0002".

(** Two tickers whose deviations, 1.001 and 1.004, are both shown as 1.00. *)
Definition aaa : ticker := sample_ticker "AAAUSDT" "1000" "1010.01" "0".
Definition bbb : ticker := sample_ticker "BBBUSDT" "1000" "1010.04" "0".


(** A mark price of zero, and a ticker without its symbol. *)
Definition zero_mark : ticker := sample_ticker "ZEDUSDT" "0" "101" "0.0001".
Definition no_symbol : ticker :=
  [("markPrice", VStr "100"); ("indexPrice", VStr "101");
   ("fundingRate", VStr "0.0001")].

Definition foo_registry : dict (list Venue.t) :=
  [("FOO", [ {| Venue.platform := "X"; Venue.type := contract_tag |};
             {| Venue.platform := "Y"; Venue.type := "借贷" |} ])].

Definition sample_registry : dict (list Venue.t) :=
  (foo_registry
   ++ [("BAR", [ {| Venue.platform := "X"; Venue.type := contract_tag |} ]);
       ("AAA", [ {| Venue.platform := "Y"; Venue.type := "借贷" |} ]);
       ("BBB", [ {| Venue.platform := "X"; Venue.type := contract_tag |} ])
      ])%list.

Definition fresh_world : world := {|
  file := Absent;
  writable := true;
  clock := fun n => 1700000000 + Z.of_nat n;
  reads := 0;
  trace := []
|}.

Definition foo_alert : Alert.t :=
  {| Alert.token := "FOO"; Alert.message := "FOO_USDT on X" |}.
Definition foo_alert' : Alert.t :=
  {| Alert.token := "FOO"; Alert.message := "FOO_USDT on Y" |}.
Definition bar_alert : Alert.t :=
  {| Alert.token := "BAR"; Alert.message := "BAR_USDT on X" |}.

Definition foo_record : Rec.t :=
  {| Rec.token := "FOO"; Rec.timestamp := 1699999999;
     Rec.message := "FOO_USDT on X" |}.
Definition baz_record : Rec.t :=
  {| Rec.token := "BAZ"; Rec.timestamp := 1699999000;
     Rec.message := "BAZ_USDT on X" |}.

(** A store that already holds FOO. *)
Definition seen_world : world := set_file (Stored [foo_record]) fresh_world.

Definition persistent_config : config := {|
  UPDATE_JSON := "Yes";
  DEVIATION_THRESHOLD := DEVIATION_THRESHOLD source_config;
  ARBITRAGE_THRESHOLD_CONTRACT := ARBITRAGE_THRESHOLD_CONTRACT source_config;
  ARBITRAGE_THRESHOLD_LENDING := ARBITRAGE_THRESHOLD_LENDING source_config;
  DISPLAY_CONFIG := DISPLAY_CONFIG source_config
|}.

(** The tables after [foo] alone. *)
Definition foo_tables : tables :=
  Eval vm_compute in
    match scan source_config sample_registry [foo] with
    | Ok t => t
    | Raise _ => ([], [], [])
    end.

(** The tokens of the new records of a pass, and the world it leaves. *)
Definition new_tokens_of
    (r : result (tables * list Alert.t * list Rec.t * world)) : list string :=
  match r with
  | Ok (_, _, new_alerts, _) => map Rec.token new_alerts
  | Raise _ => []
  end.

Definition world_of (w0 : world)
    (r : result (tables * list Alert.t * list Rec.t * world)) : world :=
  match r with
  | Ok (_, _, _, w) => w
  | Raise _ => w0
  end.

(** The deviation of a ticker, from its two prices. *)
Definition ticker_deviation (item : ticker) : result Float.float :=
  mark_price <- field_float "markPrice" item ;;
  index_price <- field_float "indexPrice" item ;;
  deviation_of index_price mark_price.

(* ------------------------------------------------------------------ *)
(** ** [load_platforms] *)

(** The white space [str.strip] removes from an ASCII string. *)
Definition is_whitespace (c : ascii) : bool :=
  (((9 <=? Str.code c) && (Str.code c <=? 13))
   || ((28 <=? Str.code c) && (Str.code c <=? 32)))%N.

Fixpoint drop_whitespace (l : list ascii) : list ascii :=
  match l with
  | c :: r => if is_whitespace c then drop_whitespace r else l
  | [] => []
  end.

(** [s.strip()] *)
Definition str_strip (s : string) : string :=
  Str.of_chars (rev (drop_whitespace (rev (drop_whitespace (Str.chars s))))).

(** [token.strip().upper()] on text *)
Definition normalise (s : string) : string := Str.upper (str_strip s).

(** The entry [{"platform": ..., "type": ...}] of the registry: the two
    values are stored as the file gives them. *)
Module RawVenue.
Record t : Type := {
  platform : value;
  type : value
}.
End RawVenue.

(** [for x in v] *)
Definition py_iter (v : value) : result (list value) :=
  match v with
  | VList l => Ok l
  | VDict d => Ok (map VStr (keys d))
  | VStr s => Ok (map (fun c => VStr (String c EmptyString)) (Str.chars s))
  | VNone | VBool _ | VInt _ | VFloat _ => Raise TypeError
  end.

(** [v[k]] for a text key *)
Definition subscript (k : string) (v : value) : result value :=
  match v with
  | VDict d => getitem k d
  | _ => Raise TypeError
  end.

(** [v.strip().upper()] *)
Definition clean_token_of (v : value) : result string :=
  match v with
  | VStr s => Ok (normalise s)
  | _ => Raise AttributeError
  end.

(** [d.setdefault(k, []).append(x)] *)
Definition setdefault_append {V : Type} (k : string) (x : V)
    (d : dict (list V)) : dict (list V) :=
  dict_set k (match dict_get k d with
              | Some l => (l ++ [x])%list
              | None => [x]
              end) d.

(** The body of the inner [for] of [load_platforms]. *)
Definition add_token (p : value) (token_map : dict (list RawVenue.t))
    (token : value) : result (dict (list RawVenue.t)) :=
  clean_token <- clean_token_of token ;;
  platform <- subscript "platform" p ;;
  type <- subscript "type" p ;;
  Ok (setdefault_append clean_token
        {| RawVenue.platform := platform; RawVenue.type := type |} token_map).

(** The body of the outer [for]. *)
Definition add_platform (token_map : dict (list RawVenue.t)) (p : value)
  : result (dict (list RawVenue.t)) :=
  pairs <- subscript "pairs" p ;;
  tokens <- py_iter pairs ;;
  for_each (add_token p) tokens token_map.

(** The two loops over the decoded configuration. *)
Definition build_token_map (platforms : value)
  : result (dict (list RawVenue.t)) :=
  ps <- py_iter platforms ;;
  for_each add_platform ps [].

(** The configuration file: what [json.load] answers, or a file that
    cannot be opened or decoded. *)
Inductive platform_file : Type :=
| Unreadable
| Decoded (platforms : value).

(** [load_platforms]: any exception is caught, reported, and answered with
    an empty registry. *)
Definition load_platforms (f : platform_file)
  : dict (list RawVenue.t) * list event :=
  match f with
  | Unreadable => ([], [Printed "平台配置加载失败"])
  | Decoded platforms =>
      match build_token_map platforms with
      | Ok token_map => (token_map, [])
      | Raise _ => ([], [Printed "平台配置加载失败"])
      end
  end.

(** The registry as [process_data] reads it, when every platform name and
    type tag is text. *)
Definition typed_venue (r : RawVenue.t) : option Venue.t :=
  match RawVenue.platform r, RawVenue.type r with
  | VStr p, VStr t => Some {| Venue.platform := p; Venue.type := t |}
  | _, _ => None
  end.

(** A well-formed descriptor of the configuration, and the JSON objects
    that spell it. *)
Record descriptor : Type := {
  d_platform : string;
  d_type : string;
  d_pairs : list string
}.

Definition describes (d : descriptor) (p : value) : Prop :=
  exists obj,
    p = VDict obj
    /\ dict_get "platform" obj = Some (VStr (d_platform d))
    /\ dict_get "type" obj = Some (VStr (d_type d))
    /\ dict_get "pairs" obj = Some (VList (map VStr (d_pairs d))).

Definition raw_venue_of (d : descriptor) : RawVenue.t :=
  {| RawVenue.platform := VStr (d_platform d);
     RawVenue.type := VStr (d_type d) |}.

(** The venues a list of descriptors gives a key: one for every pair of a
    descriptor that normalises to the key, in the order of the file. *)
Definition venues_for (k : string) (ds : list descriptor) : list RawVenue.t :=
  flat_map
    (fun d =>
       flat_map (fun t => if String.eqb (normalise t) k
                          then [raw_venue_of d] else [])
                (d_pairs d))
    ds.

(* ================================================================== *)
(** * Properties *)

(* ------------------------------------------------------------------ *)
(** ** Characters and text *)

Module StrFacts.
Import Str.

Lemma chars_app (s t : string) : chars (s ++ t) = (chars s ++ chars t)%list.
Proof. induction s as [|c s IH]; simpl; [reflexivity | now rewrite IH]. Qed.

Lemma chars_of_chars (l : list ascii) : chars (of_chars l) = l.
Proof. apply list_ascii_of_string_of_list_ascii. Qed.

Lemma substring_chars (s : string) (n m : nat) (c : ascii) :
  In c (chars (substring n m s)) -> In c (chars s).
Proof.
  revert n m; induction s as [|a s IH]; intros [|n] [|m]; simpl; try tauto.
  - intros [H|H]; [now left | right; now apply (IH 0%nat m)].
  - intros H; right; now apply (IH n 0%nat).
  - intros H; right; now apply (IH n (S m)).
Qed.

Lemma lstrip_incl (l : list ascii) (c : ascii) : In c (lstrip l) -> In c l.
Proof.
  induction l as [|a l IH]; simpl; [tauto|].
  destruct (is_space a); simpl; tauto.
Qed.

Lemma strip_incl (l : list ascii) (c : ascii) : In c (strip l) -> In c l.
Proof.
  unfold strip; intros H.
  apply lstrip_incl. apply in_rev. apply lstrip_incl. now apply in_rev in H.
Qed.

Lemma digit_char_plain (d : Z) : plain (digit_char d).
Proof.
  unfold digit_char.
  assert (H : 0 <= d mod 10 < 10) by (apply Z.mod_pos_bound; lia).
  assert (H' : d mod 10 = 0 \/ d mod 10 = 1 \/ d mod 10 = 2 \/ d mod 10 = 3
               \/ d mod 10 = 4 \/ d mod 10 = 5 \/ d mod 10 = 6
               \/ d mod 10 = 7 \/ d mod 10 = 8 \/ d mod 10 = 9) by lia.
  repeat destruct H' as [H'|H']; rewrite H'; discriminate.
Qed.

Lemma low_digits_plain (k : nat) (n : Z) : Forall plain (chars (low_digits k n)).
Proof.
  induction k as [|k IH]; simpl; constructor; auto using digit_char_plain.
Qed.

Lemma string_of_uint_plain (u : Decimal.uint) :
  Forall plain (chars (NilEmpty.string_of_uint u)).
Proof.
  induction u; simpl; constructor; auto; discriminate.
Qed.

Lemma of_nonneg_plain (n : Z) : Forall plain (chars (of_nonneg n)).
Proof.
  unfold of_nonneg, NilZero.string_of_uint.
  destruct (N.to_uint (Z.to_N n)) eqn:E;
    try (rewrite <- E; apply string_of_uint_plain).
  repeat constructor; discriminate.
Qed.
End StrFacts.

(* ------------------------------------------------------------------ *)
(** ** Floats: conversions never answer a NaN, and [<] is a weak order *)

Module FloatFacts.
Import Float.

Lemma shr_1_nonneg (mrs : shr_record) :
  0 <= shr_m mrs -> 0 <= shr_m (shr_1 mrs).
Proof.
  destruct mrs as [m r s]; simpl.
  destruct m as [|p|p]; simpl; try lia; destruct p; simpl; lia.
Qed.

Lemma iter_pos_invariant {A : Type} (I : A -> Prop) (f : A -> A) :
  (forall a, I a -> I (f a)) ->
  forall (p : positive) (a : A), I a -> I (iter_pos f p a).
Proof.
  intros Hf; induction p as [p IH|p IH|]; simpl; intros a Ha; auto.
Qed.

Lemma shr_nonneg (mrs : shr_record) (e n : Z) :
  0 <= shr_m mrs -> 0 <= shr_m (fst (shr mrs e n)).
Proof.
  intros H; destruct n as [|p|p]; simpl; auto.
  apply (iter_pos_invariant (fun r => 0 <= shr_m r)); auto.
  apply shr_1_nonneg.
Qed.

Lemma shr_record_of_loc_m (m : Z) (l : location) :
  shr_m (shr_record_of_loc m l) = m.
Proof. destruct l as [|[| |]]; reflexivity. Qed.

Lemma shr_fexp_nonneg (m e : Z) (l : location) :
  0 <= m -> 0 <= shr_m (fst (shr_fexp prec emax m e l)).
Proof.
  intros H; unfold shr_fexp; apply shr_nonneg.
  now rewrite shr_record_of_loc_m.
Qed.

Lemma round_nearest_even_nonneg (m : Z) (l : location) :
  0 <= m -> 0 <= round_nearest_even m l.
Proof.
  intros H; destruct l as [|[| |]]; simpl; try lia.
  destruct (Z.even m); lia.
Qed.

Lemma binary_round_aux_not_nan (s : bool) (m e : Z) (l : location) :
  0 <= m -> is_nan (binary_round_aux prec emax s m e l) = false.
Proof.
  intros H; unfold binary_round_aux.
  pose proof (shr_fexp_nonneg m e l H) as H1.
  destruct (shr_fexp prec emax m e l) as [mrs' e']; simpl in H1.
  pose proof (round_nearest_even_nonneg _ (loc_of_shr_record mrs') H1) as H2.
  pose proof (shr_fexp_nonneg _ e' loc_Exact H2) as H3.
  destruct (shr_fexp prec emax _ e' loc_Exact) as [mrs'' e'']; simpl in H3.
  destruct (shr_m mrs'') as [|p|p]; try reflexivity; try lia.
  now destruct (e'' <=? emax - prec).
Qed.

Lemma of_ratio_not_nan (s : bool) (p q : Z) :
  0 < q -> is_nan (of_ratio s p q) = false.
Proof.
  intros Hq; unfold of_ratio, SFdiv_core_binary.
  set (sh := _ - _ - _).
  set (m' := match sh with Z0 => Z.abs p | Zpos _ => Z.shiftl (Z.abs p) sh
             | Zneg _ => 0 end).
  assert (Hm : 0 <= m').
  { unfold m'; destruct sh; try lia. apply Z.shiftl_nonneg; lia. }
  pose proof (Z.div_pos m' q Hm Hq) as Hd.
  unfold Z.div in Hd.
  destruct (Z.div_eucl m' q) as [quo r].
  now apply binary_round_aux_not_nan.
Qed.

Lemma of_decimal_not_nan (s : bool) (d k : Z) :
  is_nan (of_decimal s d k) = false.
Proof.
  unfold of_decimal; destruct k; apply of_ratio_not_nan; try lia;
    apply Z.pow_pos_nonneg; lia.
Qed.

Ltac split_compare :=
  repeat match goal with
  | H : context [Pos.compare_cont Eq ?a ?b] |- _ =>
      change (Pos.compare_cont Eq a b) with (Pos.compare a b) in H
  | |- context [Pos.compare_cont Eq ?a ?b] =>
      change (Pos.compare_cont Eq a b) with (Pos.compare a b)
  end;
  repeat match goal with
  | H : context [Z.compare ?a ?b] |- _ => destruct (Z.compare_spec a b)
  | |- context [Z.compare ?a ?b] => destruct (Z.compare_spec a b)
  | H : context [Pos.compare ?a ?b] |- _ => destruct (Pos.compare_spec a b)
  | |- context [Pos.compare ?a ?b] => destruct (Pos.compare_spec a b)
  end;
  simpl in *; subst; try reflexivity; try discriminate; try lia.

Ltac by_cases x :=
  destruct x as [[|]|[|]| |[|] ? ?].

Lemma cmp_opp (x y : float) : cmp y x = CompOpp (cmp x y).
Proof.
  unfold cmp; by_cases x; by_cases y; simpl; try reflexivity; split_compare.
Qed.

Lemma cmp_eq_l (x y z : float) :
  is_nan x = false -> is_nan y = false -> is_nan z = false ->
  cmp x y = Eq -> cmp x z = cmp y z.
Proof.
  unfold cmp; by_cases x; by_cases y; simpl; try discriminate;
    intros _ _ Hz H; try discriminate H;
    by_cases z; simpl in *; try discriminate; try reflexivity;
    split_compare.
Qed.

Lemma cmp_lt_trans (x y z : float) :
  cmp x y = Lt -> cmp y z = Lt -> cmp x z = Lt.
Proof.
  unfold cmp; by_cases x; by_cases y; simpl; try discriminate;
    intros H; try discriminate H;
    by_cases z; simpl in *; try discriminate; try reflexivity;
    intros H'; split_compare.
Qed.
End FloatFacts.

(* ------------------------------------------------------------------ *)
(** ** Weak orders given by a comparison *)

Section Order.
Context {K : Type}.
Variable cmp : K -> K -> comparison.
Variable P : K -> Prop.
Hypothesis cmp_opp : forall x y, cmp y x = CompOpp (cmp x y).
Hypothesis cmp_eq_l : forall x y z,
  P x -> P y -> P z -> cmp x y = Eq -> cmp x z = cmp y z.
Hypothesis cmp_lt_trans : forall x y z,
  P x -> P y -> P z -> cmp x y = Lt -> cmp y z = Lt -> cmp x z = Lt.

Let lt (x y : K) : bool := Float.is_lt (cmp x y).

Lemma order_asym (x y : K) : lt x y = true -> lt y x = false.
Proof.
  unfold lt; rewrite (cmp_opp x y); now destruct (cmp x y).
Qed.

Lemma order_eq_r (x y z : K) :
  P x -> P y -> P z -> cmp y z = Eq -> cmp x z = cmp x y.
Proof.
  intros Hx Hy Hz H.
  assert (H' : cmp z y = Eq) by (rewrite cmp_opp, H; reflexivity).
  rewrite (cmp_opp z x), (cmp_opp y x).
  now rewrite (cmp_eq_l z y x Hz Hy Hx H').
Qed.

Lemma order_negtrans (x y z : K) :
  P x -> P y -> P z ->
  lt x y = false -> lt y z = false -> lt x z = false.
Proof.
  unfold lt; intros Hx Hy Hz Hxy Hyz.
  destruct (cmp x y) eqn:Exy; try discriminate.
  - now rewrite (cmp_eq_l x y z Hx Hy Hz Exy).
  - destruct (cmp y z) eqn:Eyz; try discriminate.
    + now rewrite (order_eq_r x y z Hx Hy Hz Eyz), Exy.
    + assert (Hzy : cmp z y = Lt) by (rewrite cmp_opp, Eyz; reflexivity).
      assert (Hyx : cmp y x = Lt) by (rewrite cmp_opp, Exy; reflexivity).
      rewrite (cmp_opp z x), (cmp_lt_trans z y x Hz Hy Hx Hzy Hyx); reflexivity.
Qed.
End Order.

Module OrderFacts.
Import Float FloatFacts.

Lemma ltb_cmp (x y : float) : ltb x y = is_lt (cmp x y).
Proof.
  unfold ltb, SFltb, cmp; destruct (SFcompare x y) as [[| |]|]; reflexivity.
Qed.

Lemma cmp_some (x y : float) :
  is_nan x = false -> is_nan y = false -> SFcompare x y = Some (cmp x y).
Proof.
  unfold cmp; by_cases x; by_cases y; simpl; try discriminate; reflexivity.
Qed.

Lemma eqb_cmp (x y : float) :
  is_nan x = false -> is_nan y = false ->
  eqb x y = match cmp x y with Eq => true | _ => false end.
Proof.
  intros Hx Hy; unfold eqb, SFeqb; rewrite (cmp_some _ _ Hx Hy).
  now destruct (cmp x y).
Qed.

Lemma leb_cmp (x y : float) :
  is_nan x = false -> is_nan y = false ->
  leb x y = match cmp x y with Gt => false | _ => true end.
Proof.
  intros Hx Hy; unfold leb, SFleb; rewrite (cmp_some _ _ Hx Hy).
  now destruct (cmp x y).
Qed.

Lemma ltb_number (x y : float) :
  ltb x y = true -> is_nan x = false /\ is_nan y = false.
Proof.
  unfold ltb, SFltb; by_cases x; by_cases y; simpl; try discriminate; auto.
Qed.

Lemma leb_number (x y : float) :
  leb x y = true -> is_nan x = false /\ is_nan y = false.
Proof.
  unfold leb, SFleb; by_cases x; by_cases y; simpl; try discriminate; auto.
Qed.

Lemma abs_nan (x : float) : is_nan (abs x) = is_nan x.
Proof. now destruct x. Qed.



Lemma ltb_asym (x y : float) : ltb x y = true -> ltb y x = false.
Proof. rewrite !ltb_cmp; apply (order_asym cmp cmp_opp). Qed.

Lemma ltb_negtrans (x y z : float) :
  is_nan x = false -> is_nan y = false -> is_nan z = false ->
  ltb x y = false -> ltb y z = false -> ltb x z = false.
Proof.
  rewrite !ltb_cmp.
  apply (order_negtrans cmp (fun x => is_nan x = false) cmp_opp cmp_eq_l).
  intros a b c _ _ _; apply cmp_lt_trans.
Qed.

(** Pairs *)







End OrderFacts.

(* ------------------------------------------------------------------ *)
(** ** The stable sort *)

Section SortFacts.
Context {A : Type}.
Variable lt : A -> A -> bool.
Variable P : A -> Prop.
Hypothesis lt_asym : forall a b, P a -> P b -> lt a b = true -> lt b a = false.
Hypothesis lt_negtrans : forall a b c,
  P a -> P b -> P c -> lt a b = false -> lt b c = false -> lt a c = false.

(** [a] may stand before [b]. *)
Let ordered (a b : A) : Prop := lt b a = false.

Lemma insert_perm (x : A) (l : list A) : Permutation (insert lt x l) (x :: l).
Proof.
  induction l as [|y r IH]; simpl; [reflexivity|].
  destruct (lt y x); [|reflexivity].
  rewrite IH; apply perm_swap.
Qed.

Lemma sort_perm (l : list A) : Permutation (sort lt l) l.
Proof.
  induction l as [|x l IH]; simpl; [reflexivity|].
  rewrite insert_perm; now constructor.
Qed.

Lemma insert_sorted (x : A) (l : list A) :
  P x -> Forall P l ->
  StronglySorted ordered l -> StronglySorted ordered (insert lt x l).
Proof.
  intros Hx; induction l as [|y r IH]; intros HP HS; simpl.
  - repeat constructor.
  - inversion HP as [|? ? Hy Hr]; subst.
    inversion HS as [|? ? HSr Hall]; subst.
    destruct (lt y x) eqn:E.
    + constructor; [auto|].
      rewrite (insert_perm x r); constructor; [|assumption].
      unfold ordered; auto.
    + constructor; [assumption|].
      constructor; [exact E|].
      rewrite Forall_forall in *; intros z Hz.
      unfold ordered in *; apply (lt_negtrans z y x); auto.
Qed.

Lemma sort_sorted (l : list A) :
  Forall P l -> StronglySorted ordered (sort lt l).
Proof.
  induction l as [|x l IH]; intros H; simpl; [constructor|].
  inversion H; subst.
  apply insert_sorted; auto.
  now rewrite (sort_perm l).
Qed.

Lemma insert_stable (k x : A) (l : list A) :
  P k -> P x -> Forall P l ->
  filter (tied lt k) (insert lt x l) = filter (tied lt k) (x :: l).
Proof.
  intros Hk Hx; induction l as [|y r IH]; intros HP; [reflexivity|].
  inversion HP as [|? ? Hy Hr]; subst.
  simpl insert; destruct (lt y x) eqn:E; [|reflexivity].
  change (filter (tied lt k) (y :: insert lt x r))
    with (if tied lt k y then y :: filter (tied lt k) (insert lt x r)
          else filter (tied lt k) (insert lt x r)).
  rewrite (IH Hr); simpl.
  destruct (tied lt k x) eqn:Tx; [|reflexivity].
  destruct (tied lt k y) eqn:Ty; [|reflexivity].
  unfold tied in Tx, Ty.
  apply andb_prop in Tx, Ty.
  destruct Tx as [Tx _], Ty as [_ Ty].
  apply negb_true_iff in Tx, Ty.
  rewrite (lt_negtrans y k x Hy Hk Hx Ty Tx) in E; discriminate.
Qed.

Lemma sort_stable (k : A) (l : list A) :
  P k -> Forall P l ->
  filter (tied lt k) (sort lt l) = filter (tied lt k) l.
Proof.
  intros Hk; induction l as [|x l IH]; intros H; [reflexivity|].
  inversion H; subst; simpl sort.
  rewrite insert_stable; auto.
  - simpl; now rewrite IH.
  - now rewrite (sort_perm l).
Qed.
End SortFacts.

Section SortMap.
Context {A B : Type}.
Variable f : A -> B.
Variable ltA : A -> A -> bool.
Variable ltB : B -> B -> bool.
Hypothesis lt_map : forall a b, ltB (f a) (f b) = ltA a b.

Lemma insert_map (x : A) (l : list A) :
  insert ltB (f x) (map f l) = map f (insert ltA x l).
Proof.
  induction l as [|y r IH]; simpl; [reflexivity|].
  rewrite lt_map; destruct (ltA y x); simpl; congruence.
Qed.

Lemma sort_map (l : list A) : sort ltB (map f l) = map f (sort ltA l).
Proof.
  induction l as [|x l IH]; simpl; [reflexivity|].
  now rewrite IH, insert_map.
Qed.
End SortMap.

(** A list that is one non-descending run is returned as it is, whatever
    the comparison. *)
Lemma sort_descent_free {A : Type} (lt : A -> A -> bool) (l : list A) :
  descent_free lt l = true -> sort lt l = l.
Proof.
  induction l as [|x r IH]; [reflexivity|].
  destruct r as [|y r']; [reflexivity|].
  intros H; apply andb_prop in H; destruct H as [H1 H2].
  change (sort lt (x :: y :: r')) with (insert lt x (sort lt (y :: r'))).
  rewrite (IH H2); simpl.
  apply negb_true_iff in H1; now rewrite H1.
Qed.

Lemma mapM_ok {A K : Type} (key : A -> result K) (l : list A) (ks : list K) :
  mapM key l = Ok ks -> forall x, In x l -> exists k, key x = Ok k.
Proof.
  revert ks; induction l as [|y l IH]; simpl; intros ks H x Hx; [tauto|].
  destruct (key y) as [k|e] eqn:E; [|discriminate]; simpl in H.
  destruct (mapM key l) as [ks'|e]; [|discriminate].
  destruct Hx as [<-|Hx]; eauto.
Qed.

Lemma py_sort_ok {A K : Type} (ltK : K -> K -> bool) (key : A -> result K)
    (reverse : bool) (l l' : list A) :
  py_sort ltK key reverse l = Ok l' ->
  forall x, In x l -> exists k, key x = Ok k.
Proof.
  unfold py_sort; destruct (mapM key l) as [ks|e] eqn:E; [|discriminate].
  intros _; exact (mapM_ok key l ks E).
Qed.

Section PySort.
Context {A K : Type}.
Variable ltK : K -> K -> bool.
Variable key : A -> result K.
Variable kf : A -> K.

Lemma mapM_total (l : list A) :
  (forall x, In x l -> key x = Ok (kf x)) -> mapM key l = Ok (map kf l).
Proof.
  induction l as [|x l IH]; intros H; simpl; [reflexivity|].
  rewrite (H x (or_introl eq_refl)); simpl.
  rewrite IH; [reflexivity|]; intros; apply H; now right.
Qed.

Lemma py_sort_total (reverse : bool) (l : list A) :
  (forall x, In x l -> key x = Ok (kf x)) ->
  py_sort ltK key reverse l = Ok (sort (before ltK kf reverse) l).
Proof.
  intros H; unfold py_sort; rewrite (mapM_total l H); simpl.
  f_equal.
  assert (E : combine (map kf l) l = map (fun x => (kf x, x)) l).
  { clear H; induction l; simpl; congruence. }
  rewrite E.
  rewrite (sort_map (fun x => (kf x, x)) (before ltK kf reverse));
    [|reflexivity].
  rewrite map_map; simpl; apply map_id.
Qed.
End PySort.

(* ------------------------------------------------------------------ *)
(** ** The displayed deviation reads back as a number *)

Module KeyFacts.
Import Str StrFacts Float FloatFacts.

Lemma Forall_chars_app (P : ascii -> Prop) (s t : string) :
  Forall P (chars s) -> Forall P (chars t) -> Forall P (chars (s ++ t)).
Proof. intros; rewrite chars_app; apply Forall_app; auto. Qed.

Lemma sign_str_plain (s : bool) : Forall plain (chars (sign_str s)).
Proof. destruct s; repeat constructor; discriminate. Qed.

Lemma fixed_plain (n : Z) (p : nat) : Forall plain (chars (fixed n p)).
Proof.
  unfold fixed; destruct p as [|p]; [apply of_nonneg_plain|].
  repeat apply Forall_chars_app;
    auto using of_nonneg_plain, low_digits_plain.
  repeat constructor; discriminate.
Qed.

Lemma format_f_plain (p : nat) (x : float) :
  is_nan x = false -> Forall plain (chars (format_f p x)).
Proof.
  destruct x as [s|s| |s m e]; simpl; try discriminate; intros _;
    apply Forall_chars_app; auto using sign_str_plain, fixed_plain.
  repeat constructor; discriminate.
Qed.

Lemma percent_plain (p : nat) (x : float) :
  is_nan x = false -> Forall plain (chars (percent p x)).
Proof.
  intros H; apply Forall_chars_app; [now apply format_f_plain|].
  repeat constructor; discriminate.
Qed.

Lemma scan_sign_incl (l : list ascii) (c : ascii) :
  In c (snd (scan_sign l)) -> In c l.
Proof.
  destruct l as [|a l]; simpl; [tauto|].
  destruct (Ascii.eqb a "-"); simpl; [tauto|].
  destruct (Ascii.eqb a "+"); simpl; tauto.
Qed.

Lemma is_word_nan (l : list ascii) :
  is_word "nan" l = true -> exists c, In c l /\ ~ plain c.
Proof.
  unfold is_word; intros H; apply String.eqb_eq in H.
  apply (f_equal chars) in H; rewrite chars_of_chars in H; simpl in H.
  destruct l as [|a [|b l]]; try discriminate.
  injection H as _ Hb _.
  exists b; split; [simpl; tauto | unfold plain; tauto].
Qed.

(** Only the word [nan] reads as a NaN. *)
Lemma of_string_nan (s : string) :
  of_string s = Ok S754_nan -> exists c, In c (chars s) /\ ~ plain c.
Proof.
  unfold of_string.
  destruct (scan_sign (strip (chars s))) as [sg body] eqn:E.
  assert (Hin : forall c, In c body -> In c (chars s)).
  { intros c Hc; apply strip_incl, scan_sign_incl; now rewrite E. }
  destruct (is_word "inf" body || is_word "infinity" body); [discriminate|].
  destruct (is_word "nan" body) eqn:W.
  - intros _; destruct (is_word_nan _ W) as [c [Hc Hp]]; eauto.
  - destruct (scan_number body) as [[[d n] r]|]; [|discriminate].
    destruct (scan_exponent r); [|discriminate].
    intros H; injection H as H.
    pose proof (of_decimal_not_nan sg d (z - n)) as N.
    rewrite H in N; discriminate.
Qed.

Lemma of_string_plain (s : string) (x : float) :
  Forall plain (chars s) -> of_string s = Ok x -> is_nan x = false.
Proof.
  intros Hs H; destruct x; try reflexivity.
  destruct (of_string_nan _ H) as [c [Hc Hp]].
  rewrite Forall_forall in Hs; elim Hp; auto.
Qed.
End KeyFacts.

(* ------------------------------------------------------------------ *)
(** ** [float] reads what [format] writes *)

Module ParseFacts.
Import Str StrFacts Float.

Lemma digit_facts (c : ascii) :
  digit c ->
  is_space c = false /\ lower_char c = c
  /\ Ascii.eqb c "_" = false /\ Ascii.eqb c "." = false
  /\ Ascii.eqb c "-" = false /\ Ascii.eqb c "+" = false
  /\ Ascii.eqb c "i" = false /\ Ascii.eqb c "n" = false.
Proof.
  unfold digit.
  destruct c as [[] [] [] [] [] [] [] []]; vm_compute; intros H;
    try discriminate H; repeat split.
Qed.

Lemma digit_char_digit (d : Z) : digit (digit_char d).
Proof.
  unfold digit_char.
  assert (H : 0 <= d mod 10 < 10) by (apply Z.mod_pos_bound; lia).
  assert (H' : d mod 10 = 0 \/ d mod 10 = 1 \/ d mod 10 = 2 \/ d mod 10 = 3
               \/ d mod 10 = 4 \/ d mod 10 = 5 \/ d mod 10 = 6
               \/ d mod 10 = 7 \/ d mod 10 = 8 \/ d mod 10 = 9) by lia.
  repeat destruct H' as [H'|H']; rewrite H'; reflexivity.
Qed.

Lemma low_digits_digits (k : nat) (n : Z) : Forall digit (chars (low_digits k n)).
Proof.
  induction k as [|k IH]; simpl; constructor; auto using digit_char_digit.
Qed.

Lemma string_of_uint_digits (u : Decimal.uint) :
  Forall digit (chars (NilEmpty.string_of_uint u)).
Proof. induction u; simpl; constructor; auto; reflexivity. Qed.

(** The digits of an integer: one at least, and digits only. *)
Lemma of_nonneg_digits (n : Z) :
  exists c l, chars (of_nonneg n) = c :: l /\ digit c /\ Forall digit l.
Proof.
  unfold of_nonneg, NilZero.string_of_uint.
  pose proof (string_of_uint_digits (N.to_uint (Z.to_N n))) as H.
  destruct (N.to_uint (Z.to_N n)) eqn:E; simpl in *;
    try (inversion H; subst; eauto).
  exists "0"%char, []; repeat split; constructor.
Qed.

(** Reading on through digits. *)
Lemma scan_more_digits (ds rest : list ascii) (acc n : Z) :
  Forall digit ds ->
  match rest with
  | [] => True
  | c :: _ => is_digit c = false /\ Ascii.eqb c "_" = false
  end ->
  exists acc', scan_more (ds ++ rest) acc n
               = (acc', n + Z.of_nat (List.length ds), rest).
Proof.
  intros Hd Hr; revert acc n; induction Hd as [|c ds Hc _ IH]; intros acc n.
  - exists acc; simpl; rewrite Z.add_0_r.
    destruct rest as [|c r]; [reflexivity|].
    destruct Hr as [H1 H2]; simpl; now rewrite H1, H2.
  - cbn [app scan_more]; rewrite Hc.
    destruct (IH (acc * 10 + digit_val c) (n + 1)) as [acc' E].
    exists acc'; rewrite E; f_equal; f_equal.
    rewrite length_cons; lia.
Qed.

Lemma scan_digits_all (c : ascii) (ds rest : list ascii) :
  digit c -> Forall digit ds ->
  match rest with
  | [] => True
  | c :: _ => is_digit c = false /\ Ascii.eqb c "_" = false
  end ->
  exists v n, scan_digits (c :: ds ++ rest) = Some (v, n, rest).
Proof.
  intros Hc Hd Hr; unfold scan_digits; rewrite Hc.
  destruct (scan_more_digits ds rest (digit_val c) 1 Hd Hr) as [acc' E].
  rewrite E; eauto.
Qed.

Lemma is_word_digit (w : ascii) (ws : string) (c : ascii) (l : list ascii) :
  digit c -> Ascii.eqb c w = false -> is_word (String w ws) (c :: l) = false.
Proof.
  intros Hc Hw; unfold is_word; simpl.
  destruct (digit_facts c Hc) as [_ [-> _]].
  now rewrite Hw.
Qed.

(** A fixed-point numeral reads as a number. *)
Lemma of_chars_fixed (n : Z) (p : nat) :
  exists d k,
    scan_number (chars (fixed n p)) = Some (d, k, [])
    /\ is_word "inf" (chars (fixed n p)) = false
    /\ is_word "infinity" (chars (fixed n p)) = false
    /\ is_word "nan" (chars (fixed n p)) = false
    /\ scan_sign (chars (fixed n p)) = (false, chars (fixed n p))
    /\ Forall (fun c => is_space c = false) (chars (fixed n p)).
Proof.
  unfold fixed; destruct p as [|p].
  - destruct (of_nonneg_digits n) as [c [l [E [Hc Hl]]]]; rewrite E.
    destruct (digit_facts c Hc) as [Sp [_ [_ [_ [M [P [Ci Cn]]]]]]].
    destruct (scan_digits_all c l [] Hc Hl I) as [v [k Es]].
    rewrite app_nil_r in Es.
    exists v, 0; unfold scan_number, scan_sign; rewrite Es, M, P.
    rewrite !is_word_digit by assumption.
    repeat split; constructor; auto.
    apply Forall_forall; intros x Hx; rewrite Forall_forall in Hl.
    apply (digit_facts x (Hl x Hx)).
  - set (q := n / 10 ^ Z.of_nat (S p)).
    destruct (of_nonneg_digits q) as [c [l [E [Hc Hl]]]].
    rewrite !chars_app, E.
    destruct (digit_facts c Hc) as [Sp [_ [_ [_ [M [P [Ci Cn]]]]]]].
    pose proof (low_digits_digits (S p) n) as Hf.
    remember (chars (low_digits (S p) n)) as frac eqn:Ef.
    assert (Hne : exists f fs, frac = f :: fs) by (rewrite Ef; simpl; eauto).
    destruct Hne as [f [fs ->]].
    inversion Hf as [|? ? Hf1 Hf2]; subst.
    change (chars ".") with ["."%char].
    destruct (scan_digits_all c l ("."%char :: f :: fs) Hc Hl)
      as [v [k Es]]; [split; reflexivity|].
    destruct (scan_digits_all f fs [] Hf1 Hf2 I) as [v' [k' Es']].
    rewrite app_nil_r in Es'.
    exists (v * 10 ^ k' + v'), k'.
    unfold scan_number, scan_sign.
    cbn [app]; rewrite Es; cbn [Ascii.eqb Bool.eqb]; rewrite Es', M, P.
    rewrite !is_word_digit by assumption.
    repeat split. constructor; [exact Sp|].
    apply Forall_app; split.
    + apply Forall_forall; intros x Hx; rewrite Forall_forall in Hl.
      apply (digit_facts x (Hl x Hx)).
    + constructor; [reflexivity|].
      apply Forall_forall; intros x Hx.
      assert (Hd : digit x).
      { destruct Hx as [<-|Hx]; [exact Hf1|].
        rewrite Forall_forall in Hf2; auto. }
      apply (digit_facts x Hd).
Qed.

Lemma lstrip_solid (l : list ascii) :
  Forall (fun c => is_space c = false) l -> lstrip l = l.
Proof. intros [|c r H _]; simpl; [reflexivity | now rewrite H]. Qed.

Lemma strip_solid (l : list ascii) :
  Forall (fun c => is_space c = false) l -> strip l = l.
Proof.
  intros H; unfold strip.
  rewrite (lstrip_solid l H), lstrip_solid, rev_involutive; [reflexivity|].
  now apply Forall_rev.
Qed.

Lemma of_string_fixed (s : bool) (n : Z) (p : nat) :
  exists y, of_string (sign_str s ++ fixed n p) = Ok y.
Proof.
  destruct (of_chars_fixed n p) as [d [k [En [W1 [W2 [W3 [Es Sp]]]]]]].
  unfold of_string; rewrite chars_app.
  rewrite strip_solid.
  2:{ apply Forall_app; split; [|exact Sp].
      destruct s; repeat constructor. }
  assert (E : scan_sign (chars (sign_str s) ++ chars (fixed n p))
              = (s, chars (fixed n p))).
  { destruct s; [reflexivity | exact Es]. }
  rewrite E, W1, W2, W3, En; simpl; eauto.
Qed.

(** Whatever [format] writes for a float, [float] reads. *)
Lemma of_string_format (p : nat) (x : float) :
  exists y, of_string (format_f p x) = Ok y.
Proof.
  destruct x as [s|s| |s m e]; simpl.
  - apply of_string_fixed.
  - destruct s; eexists; reflexivity.
  - eexists; reflexivity.
  - apply of_string_fixed.
Qed.

Lemma substring_prefix (s t : string) :
  substring 0 (String.length s) (s ++ t) = s.
Proof.
  induction s as [|c s IH]; simpl.
  - now destruct t.
  - now rewrite IH.
Qed.

Lemma length_append (s t : string) :
  String.length (s ++ t) = (String.length s + String.length t)%nat.
Proof. induction s as [|c s IH]; simpl; [reflexivity | now rewrite IH]. Qed.

Lemma drop_last_append (s t : string) :
  drop_last (String.length t) (s ++ t) = s.
Proof.
  unfold drop_last; rewrite length_append, Nat.add_sub.
  apply substring_prefix.
Qed.

(** The key of the first sort is defined on every candidate. *)
Lemma display_key_candidate (cfg : config) (x : Entry.t) :
  candidate cfg x -> exists k, display_key x = Ok k.
Proof.
  intros [bt [dev [fr [ix [mk [-> _]]]]]]; unfold display_key; simpl.
  unfold percent.
  change (drop_last 1 (format_f 2 dev ++ "%"))
    with (drop_last (String.length "%") (format_f 2 dev ++ "%")).
  rewrite (drop_last_append (format_f 2 dev) "%").
  destruct (of_string_format 2 dev) as [y ->]; simpl; eauto.
Qed.
End ParseFacts.

(* ------------------------------------------------------------------ *)
(** ** The loop of [process_data] *)

Section Loop.
Context {S X : Type}.
Variable body : S -> X -> result S.

Lemma for_each_app (l1 l2 : list X) (st : S) :
  for_each body (l1 ++ l2) st
  = (st' <- for_each body l1 st ;; for_each body l2 st').
Proof.
  revert st; induction l1 as [|x l1 IH]; intros st; simpl; [reflexivity|].
  destruct (body st x); simpl; auto.
Qed.

Lemma for_each_invariant (I : S -> Prop) :
  (forall st x st', I st -> body st x = Ok st' -> I st') ->
  forall l st st', I st -> for_each body l st = Ok st' -> I st'.
Proof.
  intros Hb; induction l as [|x l IH]; simpl; intros st st' Hi H.
  - now injection H as <-.
  - destruct (body st x) as [st1|e] eqn:E; [|discriminate].
    simpl in H; eauto.
Qed.

(** An exception in the body ends the loop. *)
Lemma for_each_raise (pre post : list X) (x : X) (st st1 : S) (e : exn) :
  for_each body pre st = Ok st1 -> body st1 x = Raise e ->
  for_each body (pre ++ x :: post) st = Raise e.
Proof.
  intros H1 H2; rewrite for_each_app, H1; simpl; now rewrite H2.
Qed.
End Loop.

Module ProcessFacts.
Import Float.


Lemma deviation_of_zero (index_price mark_price : float) :
  is_zero mark_price = true ->
  deviation_of index_price mark_price = Raise ZeroDivisionError.
Proof. intros H; unfold deviation_of, div; now rewrite H. Qed.

(** The body only appends, and what it appends does not depend on the
    tables it is given. *)
Lemma process_item_frame cfg tm mt arb plat item :
  process_item cfg tm (mt, arb, plat) item
  = match emitted cfg tm item with
    | Ok (m, a, p) => Ok ((mt ++ m)%list, (arb ++ a)%list, (plat ++ p)%list)
    | Raise e => Raise e
    end.
Proof.
  unfold emitted, process_item.
  destruct (getitem "symbol" item) as [sym|e]; simpl; [|reflexivity].
  destruct (py_upper sym) as [symbol|e]; simpl; [|reflexivity].
  destruct (parse_prices item) as [[[mk ix] fr]|e].
  - destruct (getitem "*" (DISPLAY_CONFIG cfg)) as [star|e]; simpl;
      [|reflexivity].
    destruct (deviation_of ix mk) as [dev|e]; simpl; [|reflexivity].
    destruct (ltb _ _); destruct (String.eqb _ "yes"); simpl;
      rewrite ?app_nil_r; reflexivity.
  - destruct e; simpl; rewrite ?app_nil_r; reflexivity.
Qed.

Lemma for_each_frame cfg tm raw mt arb plat :
  for_each (process_item cfg tm) raw (mt, arb, plat)
  = match scan cfg tm raw with
    | Ok (m, a, p) => Ok ((mt ++ m)%list, (arb ++ a)%list, (plat ++ p)%list)
    | Raise e => Raise e
    end.
Proof.
  unfold scan; revert mt arb plat.
  induction raw as [|y raw IH]; intros mt arb plat; cbn [for_each].
  - now rewrite !app_nil_r.
  - rewrite (process_item_frame cfg tm mt arb plat y).
    fold (emitted cfg tm y).
    destruct (emitted cfg tm y) as [[[m1 a1] p1]|e]; cbn [bind];
      [|reflexivity].
    rewrite (IH (mt ++ m1) (arb ++ a1) (plat ++ p1))%list, (IH m1 a1 p1).
    destruct (for_each _ raw _) as [[[m' a'] p']|e]; [|reflexivity].
    now rewrite !app_assoc.
Qed.

Lemma scan_cons cfg tm item raw :
  scan cfg tm (item :: raw)
  = match emitted cfg tm item, scan cfg tm raw with
    | Ok (m, a, p), Ok (m', a', p') =>
        Ok ((m ++ m')%list, (a ++ a')%list, (p ++ p')%list)
    | Raise e, _ => Raise e
    | _, Raise e => Raise e
    end.
Proof.
  unfold scan at 1; cbn [for_each]; fold (emitted cfg tm item).
  destruct (emitted cfg tm item) as [[[m a] p]|e]; cbn [bind]; [|reflexivity].
  apply for_each_frame.
Qed.
End ProcessFacts.

Module TableFacts.
Import Float FloatFacts OrderFacts StrFacts KeyFacts ProcessFacts.

Lemma process_item_ok cfg tm st item st' :
  tables_ok cfg st -> process_item cfg tm st item = Ok st' -> tables_ok cfg st'.
Proof.
  destruct st as [[mt arb] plat]; unfold process_item, tables_ok; simpl.
  intros [Ha Hp].
  destruct (getitem "symbol" item) as [sym|e]; simpl; [|discriminate].
  destruct (py_upper sym) as [symbol|e]; simpl; [|discriminate].
  destruct (parse_prices item) as [[[mk ix] fr]|e].
  - destruct (getitem "*" (DISPLAY_CONFIG cfg)) as [star|e]; simpl;
      [|discriminate].
    destruct (deviation_of ix mk) as [dev|e]; simpl; [|discriminate].
    destruct (ltb _ _) eqn:L; intros H; injection H as <-; simpl; auto.
    split; apply Forall_app; split; auto.
    + constructor; [|constructor].
      exists (base_token_of symbol), dev, fr, ix, mk; auto.
    + apply Forall_forall; intros o Ho.
      apply in_map_iff in Ho; destruct Ho as [v [<- _]]; exact L.
  - destruct e; intros H; try discriminate; injection H as <-; simpl; auto.
Qed.

Lemma scan_ok cfg tm raw st :
  scan cfg tm raw = Ok st -> tables_ok cfg st.
Proof.
  apply (for_each_invariant (process_item cfg tm) (tables_ok cfg)).
  - intros ? ? ?; apply process_item_ok.
  - split; constructor.
Qed.

Lemma drop_last_plain (k : nat) (s : string) :
  Forall Str.plain (Str.chars s) -> Forall Str.plain (Str.chars (Str.drop_last k s)).
Proof.
  rewrite !Forall_forall; intros H c Hc; apply H.
  unfold Str.drop_last in Hc; now apply substring_chars in Hc.
Qed.

(** The displayed deviation of a candidate never reads back as a NaN. *)
Lemma candidate_key cfg (x : Entry.t) (k : float) :
  candidate cfg x -> display_key x = Ok k -> is_nan k = false.
Proof.
  intros [bt [dev [fr [ix [mk [-> L]]]]]]; unfold display_key; simpl.
  destruct (of_string _) as [d|e] eqn:E; [|discriminate].
  simpl; intros H; injection H as <-.
  rewrite abs_nan.
  assert (N : is_nan dev = false).
  { apply ltb_number in L; destruct L as [_ L]; now rewrite abs_nan in L. }
  apply (of_string_plain _ _ (drop_last_plain 1 _ (percent_plain 2 dev N)) E).
Qed.
End TableFacts.

(* ------------------------------------------------------------------ *)
(** ** The two sorts of [process_data] *)

Lemma StronglySorted_weaken {A : Type} (R R' : A -> A -> Prop) (l : list A) :
  (forall a b, In a l -> In b l -> R a b -> R' a b) ->
  StronglySorted R l -> StronglySorted R' l.
Proof.
  intros H S; induction S as [|a l S IH F]; constructor.
  - apply IH; intros; apply H; simpl; auto.
  - rewrite Forall_forall in *; intros b Hb; apply H; simpl; auto.
Qed.

Module RankFacts.
Import Float FloatFacts OrderFacts ProcessFacts TableFacts.

Lemma process_data_scan cfg raw tm mt arb plat :
  process_data cfg raw tm = Ok (mt, arb, plat) ->
  exists arb0 plat0,
    scan cfg tm raw = Ok (mt, arb0, plat0)
    /\ py_sort ltb display_key true arb0 = Ok arb
    /\ py_sort tuple_ltb (fun x => Ok (rank_key x)) false plat0 = Ok plat.
Proof.
  unfold process_data.
  destruct (scan cfg tm raw) as [[[mt0 arb0] plat0]|e]; [|discriminate].
  cbn [bind].
  destruct (py_sort ltb display_key true arb0) as [arb1|e] eqn:E1;
    [|discriminate].
  cbn [bind].
  destruct (py_sort tuple_ltb _ false plat0) as [plat1|e] eqn:E2;
    [|discriminate].
  cbn [bind]; intros H; injection H as <- <- <-; eauto.
Qed.

Lemma process_data_sorts cfg raw tm mt arb0 plat0 arb plat :
  scan cfg tm raw = Ok (mt, arb0, plat0) ->
  py_sort ltb display_key true arb0 = Ok arb ->
  py_sort tuple_ltb (fun x => Ok (rank_key x)) false plat0 = Ok plat ->
  process_data cfg raw tm = Ok (mt, arb, plat).
Proof.
  intros H1 H2 H3; unfold process_data.
  rewrite H1; cbn [bind]; rewrite H2; cbn [bind]; now rewrite H3.
Qed.

(** The second sort has a key for every row: it always returns. *)
Lemma platform_sort_total (l : list Opp.t) :
  py_sort tuple_ltb (fun x => Ok (rank_key x)) false l
  = Ok (sort (before tuple_ltb rank_key false) l).
Proof. now apply py_sort_total. Qed.

Lemma candidate_keyed cfg (x : Entry.t) :
  candidate cfg x -> (exists k, display_key x = Ok k) -> keyed x.
Proof.
  intros C [k E]; unfold keyed, shown; rewrite E; split; [reflexivity|].
  exact (candidate_key cfg x k C E).
Qed.

Lemma shown_order (a b : Entry.t) :
  keyed a -> keyed b ->
  before ltb shown true b a = false -> shown_ge a b.
Proof.
  intros [_ Ha] [_ Hb]; unfold before, shown_ge.
  rewrite ltb_cmp, (leb_cmp _ _ Hb Ha), (cmp_opp (shown a) (shown b)).
  now destruct (cmp (shown a) (shown b)).
Qed.

Lemma shown_tied (a b : Entry.t) :
  keyed a -> keyed b ->
  tied (before ltb shown true) a b = same_shown a b.
Proof.
  intros [_ Ha] [_ Hb]; unfold tied, before, same_shown.
  rewrite !ltb_cmp, (eqb_cmp _ _ Ha Hb), (cmp_opp (shown a) (shown b)).
  now destruct (cmp (shown a) (shown b)).
Qed.

(** The first sort returns on candidates, and what it returns. *)
Lemma arbitrage_sort (l : list Entry.t) cfg :
  Forall (candidate cfg) l ->
  exists l',
    py_sort ltb display_key true l = Ok l'
    /\ Permutation l' l /\ StronglySorted shown_ge l'
    /\ forall x, In x l -> filter (same_shown x) l' = filter (same_shown x) l.
Proof.
  intros C.
  assert (K : Forall keyed l).
  { rewrite Forall_forall in *; intros x Hx.
    apply (candidate_keyed cfg); auto.
    apply (ParseFacts.display_key_candidate cfg); auto. }
  rewrite (py_sort_total ltb display_key shown true l).
  2:{ rewrite Forall_forall in K; intros x Hx; apply K, Hx. }
  eexists; split; [reflexivity|].
  set (lt := before ltb shown true).
  assert (As : forall a b, keyed a -> keyed b -> lt a b = true -> lt b a = false).
  { intros a b _ _; unfold lt, before; apply ltb_asym. }
  assert (Nt : forall a b c, keyed a -> keyed b -> keyed c ->
               lt a b = false -> lt b c = false -> lt a c = false).
  { intros a b c [_ Ha] [_ Hb] [_ Hc]; unfold lt, before; intros H1 H2.
    exact (ltb_negtrans _ _ _ Hc Hb Ha H2 H1). }
  pose proof (sort_perm lt l) as Pm.
  assert (K' : Forall keyed (sort lt l)) by now rewrite Pm.
  split; [exact Pm|]; split.
  - apply (StronglySorted_weaken (fun a b => lt b a = false)).
    + rewrite Forall_forall in K'; intros a b Ia Ib; apply shown_order; auto.
    + apply (sort_sorted lt keyed As Nt l K).
  - intros x Hx.
    assert (Kx : keyed x) by (rewrite Forall_forall in K; auto).
    rewrite Forall_forall in K, K'.
    rewrite <- (filter_ext_in (tied lt x) (same_shown x) (sort lt l)),
            <- (filter_ext_in (tied lt x) (same_shown x) l);
      try (intros y Hy; apply shown_tied; auto).
    apply (sort_stable lt keyed Nt x l Kx); now apply Forall_forall.
Qed.





End RankFacts.

(* ------------------------------------------------------------------ *)
(** ** Dictionaries *)

Section DictFacts.
Context {V : Type}.
Implicit Types (d : dict V) (k : string) (v : V).

Lemma dict_mem_In k d : dict_mem k d = true <-> In k (keys d).
Proof.
  unfold dict_mem; induction d as [|[k' v'] d IH]; simpl.
  - split; [discriminate | tauto].
  - destruct (String.eqb_spec k k') as [->|N]; [tauto|].
    rewrite IH; split; [tauto|]; intros [E|H]; [congruence | exact H].
Qed.

Lemma dict_mem_not_In k d : dict_mem k d = false <-> ~ In k (keys d).
Proof.
  rewrite <- dict_mem_In; destruct (dict_mem k d); split; congruence.
Qed.

Lemma dict_set_keys k v d :
  keys (dict_set k v d)
  = if dict_mem k d then keys d else (keys d ++ [k])%list.
Proof.
  unfold dict_mem; induction d as [|[k' v'] d IH]; simpl; [reflexivity|].
  destruct (String.eqb k k'); simpl; [reflexivity|].
  rewrite IH; now destruct (dict_get k d).
Qed.

Lemma dict_set_In k v d : In k (keys (dict_set k v d)).
Proof.
  rewrite dict_set_keys; destruct (dict_mem k d) eqn:E.
  - now apply dict_mem_In.
  - apply in_or_app; right; now left.
Qed.

Lemma dict_set_incl k k' v d :
  In k' (keys d) -> In k' (keys (dict_set k v d)).
Proof.
  rewrite dict_set_keys; destruct (dict_mem k d); auto.
  intros; apply in_or_app; now left.
Qed.

Lemma dict_set_NoDup k v d : NoDup (keys d) -> NoDup (keys (dict_set k v d)).
Proof.
  rewrite dict_set_keys; destruct (dict_mem k d) eqn:E; auto.
  intros H; apply dict_mem_not_In in E.
  apply NoDup_app; [exact H | repeat constructor; simpl; tauto |].
  intros x Hx [<-|[]]; contradiction.
Qed.

Lemma dict_set_Forall (P : string * V -> Prop) k v d :
  P (k, v) -> (forall k' v', P (k', v') -> k = k' -> P (k', v)) ->
  Forall P d -> Forall P (dict_set k v d).
Proof.
  intros Hk Hr; induction d as [|[k' v'] d IH]; simpl; intros H.
  - repeat constructor; exact Hk.
  - inversion H as [|? ? H1 H2]; subst.
    destruct (String.eqb_spec k k') as [E|N]; constructor; auto.
    apply (Hr k' v'); auto.
Qed.
End DictFacts.

Module StoreFacts.

Lemma filed_set (r : Rec.t) (d : dict Rec.t) :
  filed d -> filed (dict_set (Rec.token r) r d).
Proof.
  apply dict_set_Forall; simpl; [reflexivity|].
  intros k' v' _ E; now symmetry.
Qed.

Lemma filed_values (d : dict Rec.t) :
  filed d -> map Rec.token (values d) = keys d.
Proof.
  unfold values, keys; induction 1 as [|[k r] d H _ IH]; simpl;
    [reflexivity|].
  simpl in H; now rewrite H, IH.
Qed.

Lemma index_fold (records : list Rec.t) (d : dict Rec.t) :
  let d' := fold_left (fun d r => dict_set (Rec.token r) r d) records d in
  (NoDup (keys d) -> NoDup (keys d'))
  /\ (filed d -> filed d')
  /\ (forall k, In k (keys d') <-> In k (keys d) \/ In k (map Rec.token records)).
Proof.
  revert d; induction records as [|r l IH]; intros d; simpl.
  - repeat split; auto; tauto.
  - destruct (IH (dict_set (Rec.token r) r d)) as [N [F I]]; simpl in *.
    split; [|split].
    + intros H; apply N, dict_set_NoDup, H.
    + intros H; apply F, filed_set, H.
    + intros k; rewrite I, dict_set_keys.
      destruct (dict_mem (Rec.token r) d) eqn:E.
      * apply dict_mem_In in E; split; [tauto|].
        intros [H|[<-|H]]; auto.
      * rewrite in_app_iff; simpl; tauto.
Qed.

Lemma index_NoDup (records : list Rec.t) : NoDup (keys (index_by_token records)).
Proof. apply (index_fold records []); constructor. Qed.

Lemma index_filed (records : list Rec.t) : filed (index_by_token records).
Proof. apply (index_fold records []); constructor. Qed.

Lemma index_keys (records : list Rec.t) (k : string) :
  In k (keys (index_by_token records)) <-> In k (map Rec.token records).
Proof.
  destruct (index_fold records []) as [_ [_ I]]; simpl in I.
  rewrite (I k); simpl; tauto.
Qed.

(** The loop: what it adds to the index is what it returns, the store
    file is not touched, and nothing is traced. *)
Lemma filter_fold (alerts : list Alert.t) :
  forall existing new_alerts w,
  exists existing' delta w',
    fold_left filter_step alerts (existing, new_alerts, w)
    = (existing', (new_alerts ++ delta)%list, w')
    /\ keys existing' = (keys existing ++ map Rec.token delta)%list
    /\ (NoDup (keys existing) -> NoDup (keys existing'))
    /\ (filed existing -> filed existing')
    /\ (forall a, In a alerts -> In (Alert.token a) (keys existing'))
    /\ (forall t, In t (map Rec.token delta) ->
          In t (map Alert.token alerts))
    /\ file w' = file w /\ writable w' = writable w /\ trace w' = trace w.
Proof.
  induction alerts as [|a l IH]; intros existing new_alerts w.
  - exists existing, [], w; simpl; rewrite !app_nil_r.
    repeat split; auto; tauto.
  - cbn [fold_left]; unfold filter_step at 2.
    destruct (dict_mem (Alert.token a) existing) eqn:M.
    + destruct (IH existing new_alerts w)
        as [e' [delta [w' [E [K [N [F [A [T W]]]]]]]]].
      exists e', delta, w'; repeat split; auto; try apply W.
      * intros b [<-|Hb]; auto.
        rewrite K; apply in_or_app; left; now apply dict_mem_In.
      * intros t Ht; right; auto.
    + cbn [now fst snd].
      set (r := {| Rec.token := Alert.token a;
                   Rec.timestamp := clock w (reads w);
                   Rec.message := Alert.message a |}).
      set (w1 := {| file := file w; writable := writable w;
                    clock := clock w; reads := Datatypes.S (reads w);
                    trace := trace w |}).
      destruct (IH (dict_set (Alert.token a) r existing)
                   (new_alerts ++ [r])%list w1)
        as [e' [delta [w' [E [K [N [F [A [T W]]]]]]]]].
      exists e', (r :: delta), w'.
      split; [rewrite E, <- app_assoc; reflexivity|].
      split; [rewrite K, dict_set_keys, M, <- app_assoc; reflexivity|].
      repeat split; try apply W.
      * intros H; apply N, dict_set_NoDup, H.
      * intros H; apply F; apply (filed_set r), H.
      * intros b [<-|Hb]; auto.
        rewrite K; apply in_or_app; left; apply dict_set_In.
      * intros t [<-|Ht]; [now left | right; auto].
Qed.
End StoreFacts.

Lemma NoDup_app_disjoint {A : Type} (l l' : list A) (x : A) :
  NoDup (l ++ l') -> In x l -> ~ In x l'.
Proof.
  induction l as [|a l IH]; simpl; [tauto|].
  intros H [<-|Hx] Hx'.
  - inversion H as [|? ? Ha _]; subst; apply Ha, in_or_app; now right.
  - inversion H; subst; now apply IH.
Qed.

Module FilterFacts.
Import StoreFacts.

Lemma load_file (w : world) :
  file (snd (load_arb_records w)) = file w
  /\ writable (snd (load_arb_records w)) = writable w
  /\ exists evs, trace (snd (load_arb_records w)) = (trace w ++ evs)%list
                 /\ ~ In SaveCalled evs
                 /\ forall records, ~ In (Written records) evs.
Proof.
  unfold load_arb_records; destruct (file w) eqn:E; simpl;
    repeat split; auto.
  - exists []; rewrite app_nil_r; simpl; tauto.
  - exists [Printed "记录加载失败"]; simpl; repeat split; auto.
    + intros [H|[]]; discriminate.
    + intros r [H|[]]; discriminate.
  - exists []; rewrite app_nil_r; simpl; tauto.
Qed.

(** A load depends on the file alone. *)
Lemma load_same_file (w w' : world) :
  file w = file w' ->
  fst (load_arb_records w) = fst (load_arb_records w').
Proof. unfold load_arb_records; intros ->; now destruct (file w'). Qed.

Lemma filter_loop_spec (alerts : list Alert.t) (w : world) :
  exists existing new_alerts w',
    filter_loop alerts w = (existing, new_alerts, w')
    /\ NoDup (keys existing)
    /\ filed existing
    /\ keys existing
       = (keys (index_by_token (fst (load_arb_records w)))
          ++ map Rec.token new_alerts)%list
    /\ (forall a, In a alerts -> In (Alert.token a) (keys existing))
    /\ (forall t, In t (map Rec.token new_alerts) ->
          In t (map Alert.token alerts))
    /\ file w' = file w /\ writable w' = writable w
    /\ trace w' = trace (snd (load_arb_records w)).
Proof.
  unfold filter_loop.
  destruct (load_file w) as [Hf [Hw _]].
  destruct (load_arb_records w) as [records w0]; simpl in *.
  destruct (filter_fold alerts (index_by_token records) [] w0)
    as [e' [delta [w' [E [K [N [F [A [T [W1 [W2 W3]]]]]]]]]]].
  simpl in E; exists e', delta, w'; repeat split; auto; try congruence.
  - apply N, index_NoDup.
  - apply F, index_filed.
Qed.

Lemma dict_mem_existsb {V : Type} (k : string) (d : dict V) :
  dict_mem k d = existsb (String.eqb k) (keys d).
Proof.
  unfold dict_mem; induction d as [|[k' v] d IH]; simpl; [reflexivity|].
  destruct (String.eqb k k'); simpl; [reflexivity | exact IH].
Qed.

(** The tokens of the new records depend on the keys and the alerts only,
    not on the clock. *)
Lemma filter_fold_tokens (alerts : list Alert.t) :
  forall existing new_alerts w,
    map Rec.token (snd (fst (fold_left filter_step alerts
                               (existing, new_alerts, w))))
    = (map Rec.token new_alerts ++ fresh_tokens (keys existing) alerts)%list.
Proof.
  induction alerts as [|a l IH]; intros existing new_alerts w.
  - simpl; now rewrite app_nil_r.
  - cbn [fold_left fresh_tokens]; unfold filter_step at 2.
    rewrite <- dict_mem_existsb.
    destruct (dict_mem (Alert.token a) existing) eqn:M; [apply IH|].
    cbn [now fst snd]; rewrite IH, dict_set_keys, M.
    now rewrite map_app, <- app_assoc.
Qed.

Lemma filter_new_tokens (cfg : config) (alerts : list Alert.t) (w : world) :
  map Rec.token (fst (filter_new_alerts cfg alerts w))
  = fresh_tokens (keys (index_by_token (fst (load_arb_records w)))) alerts.
Proof.
  pose proof (filter_fold_tokens alerts
                (index_by_token (fst (load_arb_records w))) []
                (snd (load_arb_records w))) as H.
  unfold filter_new_alerts, filter_loop.
  destruct (load_arb_records w) as [records w0]; simpl in *.
  destruct (fold_left filter_step alerts _) as [[e n] w']; simpl in *.
  rewrite <- H; now destruct n.
Qed.

(** When every token is already a key, the loop changes nothing. *)
Lemma filter_fold_known (alerts : list Alert.t) (st : filter_state) :
  (forall a, In a alerts -> In (Alert.token a) (keys (fst (fst st)))) ->
  fold_left filter_step alerts st = st.
Proof.
  induction alerts as [|a l IH]; intros H; [reflexivity|].
  cbn [fold_left].
  assert (E : filter_step st a = st).
  { destruct st as [[existing new_alerts] w]; unfold filter_step.
    simpl in H.
    now rewrite (proj2 (dict_mem_In _ _) (H a (or_introl eq_refl))). }
  rewrite E; apply IH; intros b Hb; apply H; now right.
Qed.
End FilterFacts.

(* ================================================================== *)
(** * The claims on detection and ranking *)




Lemma critical_alerts_acc (cfg : config) (l : list Opp.t) (acc : list Alert.t) :
  fold_left
    (fun acc item =>
       if alert_eligible cfg item then (acc ++ [alert_of item])%list else acc)
    l acc
  = (acc ++ map alert_of (filter (alert_eligible cfg) l))%list.
Proof.
  revert acc; induction l as [|x l IH]; intros acc; simpl.
  - now rewrite app_nil_r.
  - rewrite IH; destruct (alert_eligible cfg x); simpl; [|reflexivity].
    now rewrite <- app_assoc.
Qed.

Lemma critical_alerts_filter (cfg : config) (platform_list : list Opp.t) :
  critical_alerts cfg platform_list
  = map alert_of (filter (alert_eligible cfg) platform_list).
Proof. apply critical_alerts_acc. Qed.

(** C3. The alert list holds, in the order of [platform_list], the alert of
    every opportunity that reaches the threshold of its venue type, and of
    no other: the contract threshold when the type is the contract tag,
    the lending threshold for any other type. *)
Theorem alert_threshold_by_type (cfg : config) (platform_list : list Opp.t) :
  critical_alerts cfg platform_list
  = map alert_of (filter (alert_eligible cfg) platform_list)
  /\ forall item,
       alert_eligible cfg item = true
       <-> (Opp.type item = contract_tag
            /\ Float.leb (ARBITRAGE_THRESHOLD_CONTRACT cfg)
                 (Float.abs (Opp.deviation item)) = true)
           \/ (Opp.type item <> contract_tag
               /\ Float.leb (ARBITRAGE_THRESHOLD_LENDING cfg)
                    (Float.abs (Opp.deviation item)) = true).
Proof.
  split; [apply critical_alerts_filter|].
  intros item; unfold alert_eligible, threshold_of.
  destruct (String.eqb_spec (Opp.type item) contract_tag) as [E|E]; split.
  - auto.
  - intros [[_ H]|[N _]]; [exact H | contradiction].
  - auto.
  - intros [[N _]|[_ H]]; [contradiction | exact H].
Qed.



(** C4, as stated, fails: [aaa] deviates by 1.001 and [bbb] by 1.004, both
    are shown as 1.00, and the sort, which reads the shown text back,
    leaves [aaa] before [bbb] although its deviation is the smaller one. *)
Lemma detect_exact_order_counterexample :
  exists a b da db,
    process_data source_config [aaa; bbb] [] = Ok ([], [a; b], [])
    /\ emitted source_config [] aaa = Ok ([], [a], [])
    /\ emitted source_config [] bbb = Ok ([], [b], [])
    /\ ticker_deviation aaa = Ok da
    /\ ticker_deviation bbb = Ok db
    /\ Float.ltb (Float.abs da) (Float.abs db) = true.
Proof.
  do 4 eexists.
  repeat (split; [vm_compute; reflexivity|]).
  vm_compute; reflexivity.
Qed.

(** C4, amended. Whenever the loop over the snapshot ends without an
    exception, [process_data] returns, and its candidate list is the list
    the loop built, sorted by descending absolute value of the deviation as
    it is displayed (two decimals); candidates with equal displayed
    deviations keep their original relative order. *)
Theorem detect_sorted_by_displayed (cfg : config) (raw_data : list ticker)
    (token_map : dict (list Venue.t)) (main_table : list (list string))
    (arbitrage_list0 : list Entry.t) (platform_list0 : list Opp.t) :
  scan cfg token_map raw_data
  = Ok (main_table, arbitrage_list0, platform_list0) ->
  exists arbitrage_list platform_list,
    process_data cfg raw_data token_map
    = Ok (main_table, arbitrage_list, platform_list)
    /\ Permutation arbitrage_list arbitrage_list0
    /\ StronglySorted shown_ge arbitrage_list
    /\ forall x, In x arbitrage_list0 ->
         filter (same_shown x) arbitrage_list
         = filter (same_shown x) arbitrage_list0.
Proof.
  intros Hs.
  pose proof (proj1 (TableFacts.scan_ok cfg token_map raw_data _ Hs)) as C.
  destruct (RankFacts.arbitrage_sort arbitrage_list0 cfg C) as [arb [Ha P]].
  exists arb, (sort (before tuple_ltb rank_key false) platform_list0).
  split; [|exact P].
  apply (RankFacts.process_data_sorts _ _ _ _ _ _ _ _ Hs Ha).
  apply RankFacts.platform_sort_total.
Qed.

Lemma detect_sorted_by_displayed_witness :
  exists main_table arbitrage_list0 platform_list0,
    scan source_config foo_registry [foo; aaa; bar; bbb]
    = Ok (main_table, arbitrage_list0, platform_list0)
    /\ map Entry.token arbitrage_list0 = ["FOO"; "AAA"; "BAR"; "BBB"]
    /\ exists arbitrage_list platform_list,
         process_data source_config [foo; aaa; bar; bbb] foo_registry
         = Ok (main_table, arbitrage_list, platform_list)
         /\ map Entry.token arbitrage_list = ["BAR"; "FOO"; "AAA"; "BBB"]
         /\ StronglySorted shown_ge arbitrage_list.
Proof.
  eexists; eexists; eexists.
  split; [vm_compute; reflexivity|].
  split; [reflexivity|].
  edestruct (detect_sorted_by_displayed source_config [foo; aaa; bar; bbb]
               foo_registry) as [a [p [E [_ [S _]]]]];
    [vm_compute; reflexivity|].
  exists a, p; split; [exact E|]; split; [|exact S].
  vm_compute in E; injection E as <- _; reflexivity.
Defined.




Lemma process_data_raise (cfg : config) (token_map : dict (list Venue.t))
    (pre post : list ticker) (item : ticker) (st : tables) (e : exn) :
  scan cfg token_map pre = Ok st ->
  process_item cfg token_map st item = Raise e ->
  process_data cfg (pre ++ item :: post) token_map = Raise e.
Proof.
  intros H1 H2; unfold process_data, scan.
  now rewrite (for_each_raise _ pre post item _ st e H1 H2).
Qed.

(** C2 (the code departs from the claim). A ticker whose mark price parses
    to zero is not rejected: the division raises [ZeroDivisionError]
    outside the [try], and the batch ends there, whatever the tickers
    before and after it. *)
Theorem zero_mark_aborts (cfg : config) (token_map : dict (list Venue.t))
    (pre post : list ticker) (item : ticker) (st : tables) (s star : string)
    (mark index rate : Float.float) :
  scan cfg token_map pre = Ok st ->
  getitem "symbol" item = Ok (VStr s) ->
  field_float "markPrice" item = Ok mark ->
  field_float "indexPrice" item = Ok index ->
  field_float "fundingRate" item = Ok rate ->
  Float.is_zero mark = true ->
  getitem "*" (DISPLAY_CONFIG cfg) = Ok star ->
  process_data cfg (pre ++ item :: post) token_map = Raise ZeroDivisionError.
Proof.
  intros Hp Hs Hm Hi Hr Hz Hd.
  apply (process_data_raise cfg token_map pre post item st _ Hp).
  destruct st as [[mt arb] plat]; unfold process_item, parse_prices.
  rewrite Hs; cbn [bind py_upper].
  rewrite Hm, Hi, Hr; cbn [bind].
  rewrite Hd; cbn [bind].
  now rewrite (ProcessFacts.deviation_of_zero index mark Hz).
Qed.

Lemma zero_mark_aborts_witness :
  field_float "markPrice" zero_mark = Ok (S754_zero false)
  /\ process_data source_config ([foo] ++ zero_mark :: [bar]) sample_registry
     = Raise ZeroDivisionError.
Proof.
  split; [reflexivity|].
  assert (H : scan source_config sample_registry [foo] = Ok foo_tables)
    by (vm_compute; reflexivity).
  exact (zero_mark_aborts source_config sample_registry [foo] [bar] zero_mark
           foo_tables "ZEDUSDT" "no" (S754_zero false) (Float.of_Z 101)
           (Float.of_decimal false 1 (-4))
           H eq_refl eq_refl eq_refl eq_refl eq_refl eq_refl).
Defined.

(** The part of C5 that holds: a price field that is missing or is not a
    number leaves the tables as they were. *)
Lemma malformed_price_skipped (cfg : config) (token_map : dict (list Venue.t))
    (st : tables) (item : ticker) (s : string) :
  getitem "symbol" item = Ok (VStr s) ->
  parse_prices item = Raise KeyError \/ parse_prices item = Raise ValueError ->
  process_item cfg token_map st item = Ok st.
Proof.
  intros Hs H; destruct st as [[mt arb] plat]; unfold process_item.
  rewrite Hs; cbn [bind py_upper].
  destruct H as [-> | ->]; reflexivity.
Qed.

(** C5 (the code departs from the claim). The symbol is looked up before
    the [try]: a ticker without it raises [KeyError], and the batch ends
    there instead of going on with the other tickers. *)
Theorem missing_symbol_aborts (cfg : config) (token_map : dict (list Venue.t))
    (pre post : list ticker) (item : ticker) (st : tables) :
  scan cfg token_map pre = Ok st ->
  dict_get "symbol" item = None ->
  process_data cfg (pre ++ item :: post) token_map = Raise KeyError.
Proof.
  intros Hp Hs.
  apply (process_data_raise cfg token_map pre post item st _ Hp).
  destruct st as [[mt arb] plat]; unfold process_item, getitem.
  now rewrite Hs.
Qed.

Lemma missing_symbol_aborts_witness :
  dict_get "symbol" no_symbol = None
  /\ process_data source_config ([foo] ++ no_symbol :: [bar]) sample_registry
     = Raise KeyError.
Proof.
  split; [reflexivity|].
  assert (H : scan source_config sample_registry [foo] = Ok foo_tables)
    by (vm_compute; reflexivity).
  exact (missing_symbol_aborts source_config sample_registry [foo] [bar]
           no_symbol foo_tables H eq_refl).
Defined.

(** A price that is [null] is not skipped either: [float(None)] raises
    [TypeError], which the [except] clause does not name. *)
Example null_price_aborts :
  process_data source_config
    [foo; [("symbol", VStr "NILUSDT"); ("markPrice", VNone);
           ("indexPrice", VStr "1"); ("fundingRate", VStr "0")]; bar]
    sample_registry
  = Raise TypeError.
Proof. reflexivity. Qed.

(* ================================================================== *)
(** * The claims on the record store *)

Import StoreFacts FilterFacts.

(** C8. After a call of [filter_new_alerts], no token occurs twice among
    the returned records, nor among the keys of the index or the records
    that would be saved; a token the store already held gives no record,
    and a token it did not hold gives exactly one, however many of the
    alerts carry it. *)
Theorem filter_new_unique (cfg : config) (current_alerts : list Alert.t)
    (w : world) :
  let existing := fst (fst (filter_loop current_alerts w)) in
  let new_alerts := fst (filter_new_alerts cfg current_alerts w) in
  NoDup (map Rec.token new_alerts)
  /\ NoDup (keys existing)
  /\ NoDup (map Rec.token (values existing))
  /\ (forall r, In r new_alerts -> ~ In (Rec.token r) (stored_tokens w))
  /\ (forall a, In a current_alerts ->
        count_occ string_dec (map Rec.token new_alerts) (Alert.token a)
        = if in_dec string_dec (Alert.token a) (stored_tokens w)
          then 0%nat else 1%nat).
Proof.
  destruct (filter_loop_spec current_alerts w)
    as [e [n [w' [E [N [F [K [A [T _]]]]]]]]].
  unfold filter_new_alerts; rewrite E; simpl.
  replace (fst match n with
               | [] => (n, w')
               | _ :: _ => (n, save_arb_records cfg (values e) w')
               end) with n by now destruct n.
  assert (N' : NoDup (map Rec.token n)).
  { rewrite K in N; now apply NoDup_app_remove_l in N. }
  assert (D : forall t, In t (map Rec.token n) -> ~ In t (stored_tokens w)).
  { intros t Ht Hs; unfold stored_tokens in Hs.
    apply index_keys in Hs; rewrite K in N.
    exact (NoDup_app_disjoint _ _ t N Hs Ht). }
  split; [exact N'|]; split; [exact N|]; split; [|split].
  - now rewrite (filed_values e F).
  - intros r Hr; apply D, in_map, Hr.
  - intros a Ha.
    destruct (in_dec string_dec (Alert.token a) (stored_tokens w)) as [S|S].
    + apply count_occ_not_In; intros H; exact (D _ H S).
    + apply (proj1 (NoDup_count_occ' string_dec _) N').
      specialize (A a Ha); rewrite K in A.
      apply in_app_or in A; destruct A as [A|A]; [|exact A].
      elim S; unfold stored_tokens; now apply index_keys.
Qed.

(** Two venues of one token in one pass, and a token of its own: one
    record for each token, the first alert of the token giving the text. *)
Example two_venues_one_record :
  map Rec.message
    (fst (filter_new_alerts source_config [foo_alert; foo_alert'; bar_alert]
            fresh_world))
  = ["FOO_USDT on X"; "BAR_USDT on X"].
Proof. reflexivity. Qed.

(** C1, as stated, fails with the settings of the script: nothing is
    written when [UPDATE_JSON] is not yes, each call builds its index from
    the file again, and the second call returns the same token once more. *)
Lemma filter_twice_counterexample :
  stored_tokens fresh_world = []
  /\ persistence_enabled source_config = false
  /\ map Rec.token (fst (filter_new_alerts source_config [foo_alert]
                           fresh_world)) = ["FOO"]
  /\ map Rec.token
       (fst (filter_new_alerts source_config [foo_alert]
               (snd (filter_new_alerts source_config [foo_alert]
                       fresh_world)))) = ["FOO"].
Proof. repeat split. Qed.

Lemma save_unwritten (cfg : config) (records : list Rec.t) (w : world) :
  persistence_enabled cfg && writable w = false ->
  file (save_arb_records cfg records w) = file w.
Proof.
  unfold save_arb_records; simpl.
  destruct (persistence_enabled cfg); [|reflexivity].
  simpl; now intros ->.
Qed.

Lemma filter_unwritten (cfg : config) (alerts : list Alert.t) (w : world) :
  persistence_enabled cfg && writable w = false ->
  file (snd (filter_new_alerts cfg alerts w)) = file w.
Proof.
  intros H.
  destruct (filter_loop_spec alerts w)
    as [e [n [w' [E [_ [_ [_ [_ [_ [Wf [Ww _]]]]]]]]]]].
  unfold filter_new_alerts; rewrite E.
  destruct n; simpl; [exact Wf|].
  rewrite save_unwritten; [exact Wf | now rewrite Ww].
Qed.

(** C1, amended. For a non-empty list of alerts whose tokens are not yet
    recorded, the first call returns a non-empty result; the second call
    with the same list returns an empty one when persistence is enabled
    and the write goes through, and records for the same tokens once more
    when nothing was written (persistence disabled, or a failed write):
    the index is built from the record file on every call. *)
Theorem filter_twice (cfg : config) (current_alerts : list Alert.t)
    (w : world) :
  current_alerts <> [] ->
  (forall a, In a current_alerts -> ~ In (Alert.token a) (stored_tokens w)) ->
  let first := filter_new_alerts cfg current_alerts w in
  let second := filter_new_alerts cfg current_alerts (snd first) in
  fst first <> []
  /\ (persistence_enabled cfg && writable w = true -> fst second = [])
  /\ (persistence_enabled cfg && writable w = false ->
      map Rec.token (fst second) = map Rec.token (fst first)).
Proof.
  intros Ne Fresh first second.
  destruct (filter_loop_spec current_alerts w)
    as [e [n [w' [E [N [F [K [A [T [Wf [Ww Wt]]]]]]]]]]].
  assert (Hn : n <> []).
  { destruct current_alerts as [|a l]; [congruence|].
    specialize (A a (or_introl eq_refl)); rewrite K in A.
    apply in_app_or in A; destruct A as [A|A].
    - elim (Fresh a (or_introl eq_refl)).
      unfold stored_tokens; now apply index_keys.
    - intros ->; exact A. }
  assert (H1 : first = (n, save_arb_records cfg (values e) w')).
  { unfold first, filter_new_alerts; rewrite E; destruct n; congruence. }
  split; [now rewrite H1|]; split.
  - intros P; apply andb_prop in P; destruct P as [P Wr].
    assert (H2 : file (snd first) = Stored (values e)).
    { rewrite H1; unfold save_arb_records; rewrite P; simpl.
      now rewrite Ww, Wr. }
    unfold second, filter_new_alerts, filter_loop, load_arb_records.
    rewrite H2.
    rewrite filter_fold_known; [reflexivity|].
    intros a Ha; simpl; apply index_keys.
    rewrite (filed_values e F); auto.
  - intros P; unfold second, first.
    rewrite !filter_new_tokens.
    now rewrite (load_same_file _ _ (filter_unwritten cfg current_alerts w P)).
Qed.

Lemma filter_twice_witness :
  persistence_enabled persistent_config && writable fresh_world = true
  /\ fst (filter_new_alerts persistent_config [foo_alert; bar_alert]
            fresh_world) <> []
  /\ fst (filter_new_alerts persistent_config [foo_alert; bar_alert]
            (snd (filter_new_alerts persistent_config [foo_alert; bar_alert]
                    fresh_world))) = [].
Proof.
  split; [reflexivity|].
  assert (Ne : [foo_alert; bar_alert] <> []) by discriminate.
  assert (Fr : forall a, In a [foo_alert; bar_alert] ->
                 ~ In (Alert.token a) (stored_tokens fresh_world))
    by (intros a _ []).
  destruct (filter_twice persistent_config [foo_alert; bar_alert] fresh_world
              Ne Fr) as [H1 [H2 _]].
  split; [exact H1 | exact (H2 eq_refl)].
Defined.

Lemma save_disabled (cfg : config) (records : list Rec.t) (w : world) :
  persistence_enabled cfg = false ->
  file (save_arb_records cfg records w) = file w.
Proof. intros H; unfold save_arb_records; now rewrite H. Qed.

Lemma filter_disabled (cfg : config) (alerts : list Alert.t) (w : world) :
  persistence_enabled cfg = false ->
  file (snd (filter_new_alerts cfg alerts w)) = file w.
Proof.
  intros H.
  destruct (filter_loop_spec alerts w)
    as [e [n [w' [E [_ [_ [_ [_ [_ [Wf _]]]]]]]]]].
  unfold filter_new_alerts; rewrite E.
  destruct n; simpl; [exact Wf|].
  now rewrite (save_disabled cfg _ w' H).
Qed.

(** C9. When persistence is disabled, no sequence of calls of
    [filter_new_alerts] and [save_arb_records] changes the record file: a
    load after the run finds what a load before it found, and so an empty
    mapping when the store was empty. *)
Theorem disabled_store_unchanged (cfg : config) (calls : list call)
    (w : world) :
  persistence_enabled cfg = false ->
  file (run cfg calls w) = file w
  /\ fst (load_arb_records (run cfg calls w)) = fst (load_arb_records w)
  /\ (fst (load_arb_records w) = [] ->
      index_by_token (fst (load_arb_records (run cfg calls w))) = []).
Proof.
  intros H.
  assert (F : file (run cfg calls w) = file w).
  { revert w; induction calls as [|[alerts|records] l IH]; intros w; simpl.
    - reflexivity.
    - now rewrite IH, filter_disabled.
    - now rewrite IH, save_disabled. }
  split; [exact F|].
  pose proof (load_same_file _ _ F) as L.
  split; [exact L|].
  intros E; now rewrite L, E.
Qed.

Lemma disabled_store_unchanged_witness :
  persistence_enabled source_config = false
  /\ fst (load_arb_records fresh_world) = []
  /\ index_by_token
       (fst (load_arb_records
               (run source_config
                  [FilterNew [foo_alert; bar_alert];
                   Save [baz_record];
                   FilterNew [foo_alert]]
                  fresh_world))) = [].
Proof.
  split; [reflexivity|]; split; [reflexivity|].
  apply (disabled_store_unchanged source_config _ fresh_world); reflexivity.
Defined.

(** C10. A call of [filter_new_alerts] that returns no record does not call
    [save_arb_records] and writes nothing: the record file is as it was,
    and the trace grew by nothing but a possible load warning; this does not
    depend on whether persistence is enabled. *)
Theorem no_new_no_write (cfg : config) (current_alerts : list Alert.t)
    (w w' : world) :
  filter_new_alerts cfg current_alerts w = ([], w') ->
  file w' = file w
  /\ exists evs, trace w' = (trace w ++ evs)%list
                 /\ ~ In SaveCalled evs
                 /\ forall records, ~ In (Written records) evs.
Proof.
  destruct (filter_loop_spec current_alerts w)
    as [e [n [w1 [E [_ [_ [_ [_ [_ [Wf [_ Wt]]]]]]]]]]].
  unfold filter_new_alerts; rewrite E.
  destruct n as [|r n]; intros H; [|discriminate].
  injection H as <-.
  split; [exact Wf|].
  rewrite Wt; apply load_file.
Qed.

Lemma no_new_no_write_witness :
  filter_new_alerts persistent_config [foo_alert] seen_world = ([], seen_world)
  /\ file seen_world = Stored [foo_record]
  /\ exists evs, trace seen_world = (trace seen_world ++ evs)%list
                 /\ ~ In SaveCalled evs
                 /\ forall records, ~ In (Written records) evs.
Proof.
  split; [reflexivity|]; split; [reflexivity|].
  exact (proj2 (no_new_no_write persistent_config [foo_alert]
                  seen_world seen_world eq_refl)).
Defined.

(* ================================================================== *)
(** * The worked example: one venue, one ticker, two passes *)

(** FOO at 100 against an index of 101 deviates by 1.00%, reaches the
    contract threshold on its contract venue only, and gives one new record;
    a second pass over the same snapshot gives none once the first was
    written. *)
Example poll_twice_persisted :
  let first := poll persistent_config foo_registry [foo] fresh_world in
  let second := poll persistent_config foo_registry [foo]
                  (world_of fresh_world first) in
  new_tokens_of first = ["FOO"] /\ new_tokens_of second = [].
Proof. vm_compute; split; reflexivity. Qed.

(** With the settings of the script nothing is written, and the second
    pass alerts again. *)
Example poll_twice_unwritten :
  let first := poll source_config foo_registry [foo] fresh_world in
  let second := poll source_config foo_registry [foo]
                  (world_of fresh_world first) in
  new_tokens_of first = ["FOO"] /\ new_tokens_of second = ["FOO"]
  /\ file (world_of fresh_world second) = Absent.
Proof. vm_compute; repeat split; reflexivity. Qed.
